(** * The leave-out polarization estimator of [experiments/methods/pacte.py]

    A shallow embedding of the token-count matrix builder, the party
    statistics, the three token-partisanship scorers, [calculate_polarization]
    and [get_leaveout_score], with the properties of the specification
    stated and settled on it.

    Modelling conventions.
    - A [scipy.sparse.csr_matrix] is its shape together with its dense
      contents, row by row.  Python integers are [Z]; an index that the code
      takes from [range], [enumerate] or a matrix position is a [nat].
    - A numpy float64 is modelled by the exact rational ([Qc]) of which it
      is the rounding; a float array that only ever holds whole numbers
      (the presence counts) is a [list Z], which a float64 holds exactly up
      to 2^53.  The model does not round.  For all inputs, an equation
      between two values of the model is therefore stated only where the
      program computes the two sides by the same operations on the same
      operands, up to the order of the two operands of an addition or a
      multiplication and up to operations on whole numbers that are exact;
      everything else that is stated of a value for all inputs is a sign or
      a bound that rounding to nearest keeps.  At a concrete input a value
      of the model is the number that the program's float approximates.
      [np.log2] is a parameter of the development.  Where numpy divides by
      zero (inf or nan with a warning, no exception) the model follows
      [Qc]'s convention [x / 0 = 0]; no theorem depends on such a value.
      A division of two Python integers by [/] raises [ZeroDivisionError].
    - scipy stores the counts as signed 64-bit integers; the model adds
      them in [Z].  The two agree while the absolute values of the counts
      sum to less than 2^63 ([counts_fit_int64], [entries_fit_int64]); the
      theorems on the entries that the builder stores assume it.
    - Both arguments of [calculate_polarization] range over one vocabulary,
      as at both call sites, and row indices come from [range] or from the
      generator; numpy's shape and index errors are not modelled.
    - Exceptions are values of [result]; the lines the code prints are
      carried next to the result. *)

From Stdlib Require Import ZArith QArith Qcanon Lia.
From stdpp Require Import base list numbers strings gmap.

Local Open Scope nat_scope.

(** ** Exceptions and printed output *)

Inductive exn := AssertionError | ValueError | ZeroDivisionError.

Inductive result (A : Type) :=
  | Ok (a : A)
  | Raise (e : exn).
Arguments Ok {A} a.
Arguments Raise {A} e.

(** A printed line: a literal text, or the three values of the final
    [print(actual_val, random_val, n)]. *)
Inductive line :=
  | Text (s : string)
  | Values (actual random : option Qc) (n : Z).

(** A computation that prints and then returns or raises. *)
Definition M (A : Type) : Type := list line * result A.

Definition ret {A} (a : A) : M A := ([], Ok a).
Definition raise {A} (e : exn) : M A := ([], Raise e).
Definition print (l : line) : M unit := ([l], Ok tt).

Definition bind {A B} (m : M A) (k : A → M B) : M B :=
  match m.2 with
  | Ok a => (m.1 ++ (k a).1, (k a).2)
  | Raise e => (m.1, Raise e)
  end.

Notation "'let!' x ':=' m 'in' k" := (bind m (λ x, k))
  (at level 10, x pattern, m at level 100, k at level 200).

Definition lift {A} (r : result A) : M A := ([], r).

(** [assert b] *)
Definition assert (b : bool) : M unit :=
  if b then ret tt else raise AssertionError.

(** [a / b] on Python integers *)
Definition py_div (a b : Z) : M Qc :=
  if decide (b = 0%Z) then raise ZeroDivisionError
  else ret (Qc_of_Z a / Qc_of_Z b)%Qc.

(** A [for] loop over [idx] that threads an accumulator. *)
Fixpoint for_each {A} (body : nat → A → M A) (idx : list nat) (acc : A) : M A :=
  match idx with
  | [] => ret acc
  | i :: idx' => let! acc' := body i acc in for_each body idx' acc'
  end.

(** ** Sparse count matrices *)

Record csr_matrix := Csr { ncols : nat; rows : list (list Z) }.

Definition nrows (M : csr_matrix) : nat := length (rows M).

(** [M.shape] *)
Definition shape (M : csr_matrix) : nat * nat := (nrows M, ncols M).

(** Every row stores one value per column. *)
Definition wf_matrix (M : csr_matrix) : Prop :=
  Forall (λ r, length r = ncols M) (rows M).

(** Counts are not negative (the data model of the count matrix). *)
Definition counts_nonneg (M : csr_matrix) : Prop :=
  Forall (Forall (λ x, 0 ≤ x)%Z) (rows M).

(** No document is empty: every row has a nonzero entry. *)
Definition no_zero_rows (M : csr_matrix) : Prop :=
  Forall (Exists (λ x, x ≠ 0%Z)) (rows M).

Definition cell (R : list (list Z)) (i j : nat) : Z :=
  default 0%Z (R !! i ≫= (.!! j)).

(** [M[i, j]]; a position outside the matrix reads as 0. *)
Definition entry (M : csr_matrix) (i j : nat) : Z := cell (rows M) i j.

(** [M[i, :]] for [i] in range *)
Definition get_row (M : csr_matrix) (i : nat) : list Z := default [] (rows M !! i).

Definition Zsum (l : list Z) : Z := foldr Z.add 0%Z l.
Definition Qcsum (l : list Qc) : Qc := foldr Qcplus 0%Qc l.

(** [M.sum()] *)
Definition matrix_sum (M : csr_matrix) : Z := Zsum (Zsum <$> rows M).

(** [M.sum(axis=1)] *)
Definition sum_axis1 (M : csr_matrix) : list Z := Zsum <$> rows M.

(** [M.sum(axis=0)] *)
Definition sum_axis0 (M : csr_matrix) : list Z :=
  (λ j, Zsum ((λ r, default 0%Z (r !! j)) <$> rows M)) <$> seq 0 (ncols M).

(** The matrix without its row [i]. *)
Definition remove_row (M : csr_matrix) (i : nat) : csr_matrix :=
  Csr (ncols M) (delete i (rows M)).

(** [M[:k]] and [M[k:]] *)
Definition rows_upto (k : nat) (M : csr_matrix) : csr_matrix :=
  Csr (ncols M) (take k (rows M)).
Definition rows_from (k : nat) (M : csr_matrix) : csr_matrix :=
  Csr (ncols M) (drop k (rows M)).

(** [M[idx, :]] for a list of row numbers *)
Definition select_rows (idx : list nat) (M : csr_matrix) : csr_matrix :=
  Csr (ncols M) (get_row M <$> idx).

(** [sp.vstack([A, B])] *)
Definition vstack (A B : csr_matrix) : csr_matrix :=
  Csr (ncols A) (rows A ++ rows B).

(** Selection by a boolean mask: the items whose flag is set. *)
Definition mask_select {A} (mask : list bool) (l : list A) : list A :=
  (zip mask l) ≫= (λ bx : bool * A, if bx.1 then [bx.2] else []).

(** [M[mask, :]] and [M[:, mask]] *)
Definition mask_rows (mask : list bool) (M : csr_matrix) : csr_matrix :=
  Csr (ncols M) (mask_select mask (rows M)).
Definition mask_cols (mask : list bool) (M : csr_matrix) : csr_matrix :=
  Csr (length (filter (λ b, b = true) mask)) (mask_select mask <$> rows M).

(** The columns of the nonzero entries of one row, counted from [j]. *)
Fixpoint nonzero_from (j : nat) (r : list Z) : list nat :=
  match r with
  | [] => []
  | x :: r' =>
      if decide (x = 0%Z) then nonzero_from (S j) r'
      else j :: nonzero_from (S j) r'
  end.

Fixpoint nonzero_rows_from (i : nat) (R : list (list Z)) : list (nat * nat) :=
  match R with
  | [] => []
  | r :: R' => ((λ j, (i, j)) <$> nonzero_from 0 r) ++ nonzero_rows_from (S i) R'
  end.

(** [M.nonzero()], also the first two components of [sp.find(M)]: the
    positions of the nonzero entries. *)
Definition nonzero (M : csr_matrix) : list (nat * nat) :=
  nonzero_rows_from 0 (rows M).

(** ** Token-count matrix builder *)

(** A document of a gensim bag-of-words corpus: [(token_id, count)] pairs. *)
Definition document := list (Z * Z).

(** The three parallel lists [row_idx], [col_idx], [data] that the two loops
    of [get_news_token_counts] fill, kept as one list of triples;
    [coo_from i] is the outer loop from row number [i] on. *)
Fixpoint coo_from (i : nat) (corpus : list document) : list (nat * Z * Z) :=
  match corpus with
  | [] => []
  | doc :: rest => ((λ jc, (i, jc.1, jc.2)) <$> doc) ++ coo_from (S i) rest
  end.

(** scipy refuses a coordinate outside the declared shape. *)
Definition valid_entry (n V : nat) (e : nat * Z * Z) : Prop :=
  e.1.1 < n ∧ (0 ≤ e.1.2 < Z.of_nat V)%Z.

Global Instance valid_entry_dec n V e : Decision (valid_entry n V e).
Proof. unfold valid_entry. apply _. Defined.

(** One coordinate entry is added to what its cell already holds. *)
Definition add_entry (R : list (list Z)) (e : nat * Z * Z) : list (list Z) :=
  alter (alter (Z.add e.2) (Z.to_nat e.1.2)) e.1.1 R.

(** [sp.csr_matrix((data, (row_idx, col_idx)), shape=(n, V))]; the entries
    of one cell are added up, in [Z] here and in 64 bits by scipy. *)
Definition csr_from_coo (es : list (nat * Z * Z)) (n V : nat) : result csr_matrix :=
  if decide (Forall (valid_entry n V) es)
  then Ok (Csr V (foldl add_entry (replicate n (replicate V 0%Z)) es))
  else Raise ValueError.

Definition get_news_token_counts (corpus : list document) (idx2word : list string)
  : result csr_matrix :=
  csr_from_coo (coo_from 0 corpus) (length corpus) (length idx2word).

(** What the input says about token [j] of a document, and in total. *)
Definition doc_count (doc : document) (j : nat) : Z :=
  Zsum ((λ jc : Z * Z, if decide (Z.to_nat jc.1 = j) then jc.2 else 0%Z) <$> doc).

Definition doc_total (doc : document) : Z := Zsum (snd <$> doc).

Definition corpus_total (corpus : list document) : Z := Zsum (doc_total <$> corpus).

(** The token ids of a corpus are ids of the vocabulary. *)
Definition corpus_in_vocab (corpus : list document) (idx2word : list string) : Prop :=
  Forall (Forall (λ jc : Z * Z, (0 ≤ jc.1 < Z.of_nat (length idx2word))%Z)) corpus.

(** The entries of a coordinate list that fall on cell [(i, j)], summed. *)
Definition matching (i j : nat) (es : list (nat * Z * Z)) : Z :=
  Zsum ((λ e : nat * Z * Z,
           if decide (e.1.1 = i ∧ Z.to_nat e.1.2 = j) then e.2 else 0%Z) <$> es).

(** How often [k] occurs in a list of indices. *)
Definition occurrences (k : nat) (l : list nat) : nat :=
  length (filter (λ w, w = k) l).

(** The number of rows with a nonzero entry in column [j]. *)
Definition presence (R : list (list Z)) (j : nat) : nat :=
  length (filter (λ r, default 0%Z (r !! j) ≠ 0%Z) R).

(** [m] prints nothing and raises nothing but [e]. *)
Definition only_raises {A} (e : exn) (m : M A) : Prop :=
  m.1 = [] ∧ ∀ e', m.2 = Raise e' → e' = e.

(** The four count vectors with the two groups exchanged. *)
Definition swap_groups (x : Z * Z * Z * Z) : Z * Z * Z * Z :=
  (x.1.1.2, x.1.1.1, x.2, x.1.2).

(** ** Party statistics *)

(** Python's truth value of [exclude_user_id]: [None] and [0] are false. *)
Definition truthy (exclude_user_id : option nat) : bool :=
  match exclude_user_id with
  | Some (S _) => true
  | _ => false
  end.

Definition get_party_q (party_counts : csr_matrix) (exclude_user_id : option nat)
  : list Qc :=
  let user_sum := sum_axis0 party_counts in
  let user_sum :=
    if truthy exclude_user_id
    then zip_with Z.sub user_sum (get_row party_counts (default 0 exclude_user_id))
    else user_sum in
  let total_sum := Zsum user_sum in
  (λ x, Qc_of_Z x / Qc_of_Z total_sum)%Qc <$> user_sum.

Definition get_rho (dem_q rep_q : list Qc) : list Qc :=
  zip_with (λ d r, r / (d + r))%Qc dem_q rep_q.

(** [Counter(l)]: how often each key occurs in [l]. *)
Definition Counter (l : list nat) : gmap nat Z :=
  foldl (λ m k, <[k := (default 0 (m !! k) + 1)%Z]> m) ∅ l.

(** The presence counts: a float array of whole numbers. The loop over
    [user_t_counts.items()] touches every key once, so its order does not
    show in the result. *)
Definition get_token_user_counts (party_counts : csr_matrix) : list Z :=
  let no_tokens := ncols party_counts in
  let nonzero := nonzero party_counts in
  let user_t_counts := Counter (snd <$> nonzero) in
  let party_t := replicate no_tokens 1%Z in
  map_fold (λ k v party_t, alter (Z.add v) k party_t) party_t user_t_counts.

(** Lines 720-723 and 732-735: the copy of the presence counts with one
    taken off for every term of document [i]. *)
Definition leaveout_token_user_counts (party_t : list Z) (party_counts : csr_matrix)
    (i : nat) : list Z :=
  let excl_user_terms := nonzero_from 0 (get_row party_counts i) in
  foldl (λ leaveout_t term_idx, alter (λ x, x - 1)%Z term_idx leaveout_t)
        party_t excl_user_terms.

(** [party_no - party_t + 2] *)
Definition complement_counts (party_no : Z) (party_t : list Z) : list Z :=
  (λ t, party_no - t + 2)%Z <$> party_t.

(** ** Token-partisanship scorers *)

(** One argument tuple per token: the four count vectors side by side. *)
Definition zip4 (a b c d : list Z) : list (Z * Z * Z * Z) :=
  zip (zip (zip a b) c) d.

Definition chi_enum (dem_no rep_no : Z) (x : Z * Z * Z * Z) : Z :=
  let '(dem_t, rep_t, dem_not_t, rep_not_t) := x in
  let no_users := (dem_no + rep_no)%Z in
  (no_users * (dem_t * rep_not_t - dem_not_t * rep_t) ^ 2)%Z.

Definition chi_denom (dem_no rep_no : Z) (x : Z * Z * Z * Z) : Z :=
  let '(dem_t, rep_t, dem_not_t, rep_not_t) := x in
  let no_users := (dem_no + rep_no)%Z in
  let all_t := (dem_t + rep_t)%Z in
  let all_not_t := (no_users - all_t + 4)%Z in
  (all_t * all_not_t * (dem_t + dem_not_t) * (rep_t + rep_not_t))%Z.

Definition chi_square (dem_t rep_t dem_not_t rep_not_t : list Z) (dem_no rep_no : Z)
  : M (list Qc) :=
  ret ((λ x, Qc_of_Z (chi_enum dem_no rep_no x) / Qc_of_Z (chi_denom dem_no rep_no x))%Qc
         <$> zip4 dem_t rep_t dem_not_t rep_not_t).

Section scorers.
(** [np.log2] *)
Context (log2 : Qc → Qc).

(** The four terms of one token, before the factor [1 / no_users]. *)
Definition mi_terms (dem_no rep_no : Z) (x : Z * Z * Z * Z) : Qc :=
  let '(dem_t, rep_t, dem_not_t, rep_not_t) := x in
  let no_users := Qc_of_Z (dem_no + rep_no) in
  let all_t := Qc_of_Z (dem_t + rep_t) in
  let all_not_t := Qc_of_Z (dem_no + rep_no - (dem_t + rep_t) + 4) in
  let mi_dem_t :=
    (Qc_of_Z dem_t * log2 (no_users * (Qc_of_Z dem_t / (all_t * Qc_of_Z dem_no))))%Qc in
  let mi_dem_not_t :=
    (Qc_of_Z dem_not_t
     * log2 (no_users * (Qc_of_Z dem_not_t / (all_not_t * Qc_of_Z dem_no))))%Qc in
  let mi_rep_t :=
    (Qc_of_Z rep_t * log2 (no_users * (Qc_of_Z rep_t / (all_t * Qc_of_Z rep_no))))%Qc in
  let mi_rep_not_t :=
    (Qc_of_Z rep_not_t
     * log2 (no_users * (Qc_of_Z rep_not_t / (all_not_t * Qc_of_Z rep_no))))%Qc in
  (mi_dem_t + mi_dem_not_t + mi_rep_t + mi_rep_not_t)%Qc.

(** The arrays are built first; [1 / no_users] divides Python integers. *)
Definition mutual_information (dem_t rep_t dem_not_t rep_not_t : list Z)
    (dem_no rep_no : Z) : M (list Qc) :=
  let terms := mi_terms dem_no rep_no <$> zip4 dem_t rep_t dem_not_t rep_not_t in
  let! inv := py_div 1 (dem_no + rep_no) in
  ret ((λ t, inv * t)%Qc <$> terms).

(** ** Leave-out polarization estimator *)

(** [party_user_distr]: every row divided by its own sum. *)
Definition user_distr (party_counts : csr_matrix) : list (list Qc) :=
  (λ r, (λ x, 1 / Qc_of_Z (Zsum r) * Qc_of_Z x)%Qc <$> r) <$> rows party_counts.

(** [row.dot(token_scores)[0, 0]] *)
Definition dot (row token_scores : list Qc) : Qc :=
  Qcsum (zip_with Qcmult row token_scores).

(** [set(party_user_total.nonzero()[0]) == set(range(party_no))] *)
Definition all_rows_nonzero (party_user_total : list Z) : bool :=
  bool_decide
    ((list_to_set (filter (λ i, default 0%Z (party_user_total !! i) ≠ 0%Z)
                          (seq 0 (length party_user_total))) : gset nat)
     = list_to_set (seq 0 (length party_user_total))).

Definition valid_measures : list string :=
  ["posterior"; "mutual_information"; "chi_square"]%string.

(** [func] of line 696 *)
Definition func (measure : string) :=
  if decide (measure = "mutual_information"%string)
  then mutual_information else chi_square.

(** Lines 700-705: the two score vectors of the path without leave-out. *)
Definition token_scores (dem_counts rep_counts : csr_matrix) (measure : string)
  : M (list Qc * list Qc) :=
  let dem_no := Z.of_nat (nrows dem_counts) in
  let rep_no := Z.of_nat (nrows rep_counts) in
  let dem_q := get_party_q dem_counts None in
  let rep_q := get_party_q rep_counts None in
  let dem_t := get_token_user_counts dem_counts in
  let rep_t := get_token_user_counts rep_counts in
  let dem_not_t := complement_counts dem_no dem_t in
  let rep_not_t := complement_counts rep_no rep_t in
  if decide (measure = "posterior"%string) then
    let token_scores_rep := get_rho dem_q rep_q in
    let token_scores_dem := (λ x, 1 - x)%Qc <$> token_scores_rep in
    ret (token_scores_dem, token_scores_rep)
  else
    let! token_scores_dem :=
      func measure dem_t rep_t dem_not_t rep_not_t dem_no rep_no in
    let token_scores_rep := token_scores_dem in
    ret (token_scores_dem, token_scores_rep).

(** Lines 716-725: the score vector for document [i] of group 1. *)
Definition leaveout_scores_dem (dem_counts rep_counts : csr_matrix)
    (measure : string) (i : nat) : M (list Qc) :=
  let dem_no := Z.of_nat (nrows dem_counts) in
  let rep_no := Z.of_nat (nrows rep_counts) in
  let rep_q := get_party_q rep_counts None in
  let dem_t := get_token_user_counts dem_counts in
  let rep_t := get_token_user_counts rep_counts in
  let rep_not_t := complement_counts rep_no rep_t in
  let dem_leaveout_no := (dem_no - 1)%Z in
  if decide (measure = "posterior"%string) then
    let dem_leaveout_q := get_party_q dem_counts (Some i) in
    ret ((λ x, 1 - x)%Qc <$> get_rho dem_leaveout_q rep_q)
  else
    let dem_leaveout_t := leaveout_token_user_counts dem_t dem_counts i in
    let dem_leaveout_not_t := complement_counts dem_leaveout_no dem_leaveout_t in
    func measure dem_leaveout_t rep_t dem_leaveout_not_t rep_not_t
         dem_leaveout_no rep_no.

(** Lines 728-737: the score vector for document [i] of group 2. *)
Definition leaveout_scores_rep (dem_counts rep_counts : csr_matrix)
    (measure : string) (i : nat) : M (list Qc) :=
  let dem_no := Z.of_nat (nrows dem_counts) in
  let rep_no := Z.of_nat (nrows rep_counts) in
  let dem_q := get_party_q dem_counts None in
  let dem_t := get_token_user_counts dem_counts in
  let rep_t := get_token_user_counts rep_counts in
  let dem_not_t := complement_counts dem_no dem_t in
  let rep_leaveout_no := (rep_no - 1)%Z in
  if decide (measure = "posterior"%string) then
    let rep_leaveout_q := get_party_q rep_counts (Some i) in
    ret (get_rho dem_q rep_leaveout_q)
  else
    let rep_leaveout_t := leaveout_token_user_counts rep_t rep_counts i in
    let rep_leaveout_not_t := complement_counts rep_leaveout_no rep_leaveout_t in
    func measure dem_t rep_leaveout_t dem_not_t rep_leaveout_not_t
         dem_no rep_leaveout_no.

Definition calculate_polarization (dem_counts rep_counts : csr_matrix)
    (measure : string) (leaveout : bool) : M (option Qc) :=
  let dem_user_total := sum_axis1 dem_counts in
  let rep_user_total := sum_axis1 rep_counts in
  let dem_user_distr := user_distr dem_counts in
  let rep_user_distr := user_distr rep_counts in
  let dem_no := Z.of_nat (nrows dem_counts) in
  let rep_no := Z.of_nat (nrows rep_counts) in
  let! _ := assert (all_rows_nonzero dem_user_total) in
  let! _ := assert (all_rows_nonzero rep_user_total) in
  if bool_decide (measure ∉ valid_measures) then
    let! _ := print (Text "invalid method") in
    ret None
  else if negb leaveout then
    let! scores := token_scores dem_counts rep_counts measure in
    let! dem_inv := py_div 1 dem_no in
    let dem_val := (dem_inv * Qcsum ((λ row, dot row scores.1) <$> dem_user_distr))%Qc in
    let! rep_inv := py_div 1 rep_no in
    let rep_val := (rep_inv * Qcsum ((λ row, dot row scores.2) <$> rep_user_distr))%Qc in
    ret (Some (1 / 2 * (dem_val + rep_val))%Qc)
  else
    let! dem_addup :=
      for_each (λ i dem_addup,
                  let! token_scores_dem :=
                    leaveout_scores_dem dem_counts rep_counts measure i in
                  ret (dem_addup
                       + dot (default [] (dem_user_distr !! i)) token_scores_dem)%Qc)
               (seq 0 (nrows dem_counts)) 0%Qc in
    let! rep_addup :=
      for_each (λ i rep_addup,
                  let! token_scores_rep :=
                    leaveout_scores_rep dem_counts rep_counts measure i in
                  ret (rep_addup
                       + dot (default [] (rep_user_distr !! i)) token_scores_rep)%Qc)
               (seq 0 (nrows rep_counts)) 0%Qc in
    let! rep_inv := py_div 1 rep_no in
    let rep_val := (rep_inv * rep_addup)%Qc in
    let! dem_inv := py_div 1 dem_no in
    let dem_val := (dem_inv * dem_addup)%Qc in
    ret (Some (1 / 2 * (dem_val + rep_val))%Qc).
End scorers.

(** ** Score pipeline *)

(** Python's [random.Random]: the generator state and the three methods
    the pipeline calls. [sample s n k] is [RNG.sample(range(n), k)]. *)
Record Random := {
  rng_state : Type;
  seed : rng_state → Z → rng_state;
  sample : rng_state → nat → nat → list nat * rng_state;
  shuffle : rng_state → list nat → list nat * rng_state;
}.

(** What the library documents of them: [seed] reinitialises the state from
    its argument alone, [sample] draws [k] members of the population, and
    [shuffle] reorders. *)
Record RandomSpec (R : Random) : Prop := {
  seed_reinit : ∀ s s' a, seed R s a = seed R s' a;
  sample_length : ∀ s n k, k ≤ n → length (sample R s n k).1 = k;
  sample_range : ∀ s n k, k ≤ n → Forall (λ i, i < n) (sample R s n k).1;
  shuffle_perm : ∀ s l, (shuffle R s l).1 ≡ₚ l;
}.

(** What a run finds outside its arguments: the state of the module-level
    generator, and the state a new [random.Random()] starts from. *)
Record environment (R : Random) := {
  global_random : rng_state R;
  os_entropy : rng_state R;
}.
Arguments global_random {R} _.
Arguments os_entropy {R} _.

(** Lines 768-771, for one group. *)
Definition truncate_docs (max_docs : Z) (counts : csr_matrix) : csr_matrix :=
  let user_len := Z.of_nat (nrows counts) in
  if bool_decide (max_docs < user_len)%Z
  then rows_upto (Z.to_nat user_len) counts
  else counts.

(** Lines 789-797: words used by fewer than 2 people are dropped and the
    stacked matrix is split again at [dem_user_len]. *)
Definition filter_rare_words (dem_user_len : nat) (dem_counts rep_counts : csr_matrix)
  : csr_matrix * csr_matrix :=
  let all_counts := vstack dem_counts rep_counts in
  let wordcounts := snd <$> nonzero all_counts in
  let all_counts :=
    mask_cols ((λ i, bool_decide (1 < length (filter (λ w, w = i) wordcounts)))
                 <$> seq 0 (ncols all_counts)) all_counts in
  (rows_upto dem_user_len all_counts, rows_from dem_user_len all_counts).

(** Lines 802-806, for one group: users without a word of the vocabulary
    are dropped. *)
Definition filter_empty_users (counts : csr_matrix) : csr_matrix :=
  let counts_nonzero : gset nat := list_to_set (fst <$> nonzero counts) in
  mask_rows ((λ i, bool_decide (i ∈ counts_nonzero)) <$> seq 0 (nrows counts)) counts.

Section pipeline.
Context (log2 : Qc → Qc) (R : Random).

(** Lines 777-786. *)
Definition balance_groups (RNG : rng_state R) (dem_counts rep_counts : csr_matrix)
  : csr_matrix * csr_matrix * rng_state R :=
  let dem_user_len := nrows dem_counts in
  let rep_user_len := nrows rep_counts in
  if decide (rep_user_len < dem_user_len) then
    let dem_subset := sample R RNG dem_user_len rep_user_len in
    (select_rows dem_subset.1 dem_counts, rep_counts, dem_subset.2)
  else if decide (dem_user_len < rep_user_len) then
    let rep_subset := sample R RNG rep_user_len dem_user_len in
    (dem_counts, select_rows rep_subset.1 rep_counts, rep_subset.2)
  else (dem_counts, rep_counts, RNG).

(** Where lines 758-809 leave the run: returned at the guard, or with the
    two matrices for the estimator, the two lengths taken after
    subsampling, and the generator. *)
Inductive prepared :=
  | TooFewDocs (n : Z)
  | Prepared (dem_counts rep_counts : csr_matrix)
             (dem_user_len rep_user_len : nat) (RNG : rng_state R).

Definition prepare_counts (env : environment R) (corpus1 corpus2 : list document)
    (id2word : list string) (min_docs max_docs : Z) : M prepared :=
  let! dem_counts := lift (get_news_token_counts corpus1 id2word) in
  let! rep_counts := lift (get_news_token_counts corpus2 id2word) in
  let dem_user_len := Z.of_nat (nrows dem_counts) in
  let rep_user_len := Z.of_nat (nrows rep_counts) in
  if bool_decide (dem_user_len < min_docs ∨ rep_user_len < min_docs)%Z then
    ret (TooFewDocs (dem_user_len + rep_user_len))
  else
    let dem_counts := truncate_docs max_docs dem_counts in
    let rep_counts := truncate_docs max_docs rep_counts in
    let RNG := os_entropy env in
    let RNG := seed R RNG 42 in
    let balanced := balance_groups RNG dem_counts rep_counts in
    let dem_counts := balanced.1.1 in
    let rep_counts := balanced.1.2 in
    let RNG := balanced.2 in
    let dem_user_len := nrows dem_counts in
    let rep_user_len := nrows rep_counts in
    let! _ := assert (bool_decide (dem_user_len = rep_user_len)) in
    let filtered := filter_rare_words dem_user_len dem_counts rep_counts in
    let dem_counts := filter_empty_users filtered.1 in
    let rep_counts := filter_empty_users filtered.2 in
    ret (Prepared dem_counts rep_counts dem_user_len rep_user_len RNG).

Definition get_leaveout_score (env : environment R) (corpus1 corpus2 : list document)
    (id2word : list string) (token_partisanship_measure : string) (leaveout : bool)
    (default_score : Qc) (min_docs max_docs : Z)
  : M (option Qc * option Qc * Z) :=
  let! p := prepare_counts env corpus1 corpus2 id2word min_docs max_docs in
  match p with
  | TooFewDocs n => ret (Some default_score, Some default_score, n)
  | Prepared dem_counts rep_counts dem_user_len rep_user_len RNG =>
      let! actual_val :=
        calculate_polarization log2 dem_counts rep_counts
                               token_partisanship_measure leaveout in
      let all_counts := vstack dem_counts rep_counts in
      let index := shuffle R RNG (seq 0 (nrows all_counts)) in
      let all_counts := select_rows index.1 all_counts in
      let! random_val :=
        calculate_polarization log2 (rows_upto dem_user_len all_counts)
                               (rows_from dem_user_len all_counts)
                               token_partisanship_measure leaveout in
      let n := (Z.of_nat dem_user_len + Z.of_nat rep_user_len)%Z in
      let! _ := print (Values actual_val random_val n) in
      ret (actual_val, random_val, n)
  end.
End pipeline.

(** A generator for examples: the state counts the calls, [sample] takes
    the first [k] of the population and [shuffle] reverses. *)
Definition counting_random : Random := {|
  rng_state := nat;
  seed := λ _ a, Z.to_nat a;
  sample := λ s n k, (seq 0 k, S s);
  shuffle := λ s l, (reverse l, S s);
|}.

(** ** Inputs of the examples *)

(** Two documents that use one token each. *)
Definition two_users : csr_matrix := Csr 2 [[1; 0]; [0; 1]]%Z.

(** Three documents with the one word of the vocabulary. *)
Definition three_docs : list document := [[(0, 1)]; [(0, 1)]; [(0, 1)]]%Z.

Definition environment0 : environment counting_random :=
  {| global_random := 0 : rng_state counting_random;
     os_entropy := 7 : rng_state counting_random |}.

Definition environment1 : environment counting_random :=
  {| global_random := 3 : rng_state counting_random;
     os_entropy := 11 : rng_state counting_random |}.

(** A one-word document that only it uses makes the second document of
    group 1 empty once rare words are dropped. *)
Definition rare_word_corpus1 : list document := [[(0, 1)]; [(2, 1)]]%Z.
Definition rare_word_corpus2 : list document := [[(0, 1)]; [(0, 1); (1, 1)]]%Z.
Definition abc : list string := ["a"; "b"; "c"]%string.

(** Two groups of two documents whose leave-out score vectors all differ. *)
Definition users_ab : csr_matrix := Csr 2 [[1; 0]; [1; 1]]%Z.
Definition users_ba : csr_matrix := Csr 2 [[0; 1]; [1; 1]]%Z.

(** A document with a repeated token id, and an empty one. *)
Definition repeated_id_corpus : list document := [[(0, 2); (1, 1); (0, 3)]; []]%Z.


(** Stands in for [np.log2] in examples on paths that do not call it. *)
Definition log2_unused : Qc → Qc := λ x, x.

(** The rational values of a score vector that was returned. *)
Definition values (m : M (list Qc)) : option (list Q) :=
  match m.2 with
  | Ok l => Some (this <$> l)
  | Raise _ => None
  end.

(** ** Further notions used by the properties below *)

(** The counts of a corpus are not negative. *)
Definition corpus_counts_nonneg (corpus : list document) : Prop :=
  Forall (Forall (λ jc : Z * Z, (0 ≤ jc.2)%Z)) corpus.

(** scipy stores the entries of the count matrix as signed 64-bit integers.
    The sum of the absolute values of all counts of a corpus bounds every
    stored entry, every partial sum of the duplicates of one cell and the
    total of the matrix; while it is below 2^63 nothing wraps around, and
    the integers of the model are the stored values. *)
Definition doc_magnitude (doc : document) : Z :=
  Zsum ((λ jc : Z * Z, Z.abs jc.2) <$> doc).

Definition corpus_magnitude (corpus : list document) : Z :=
  Zsum (doc_magnitude <$> corpus).

Definition counts_fit_int64 (corpus : list document) : Prop :=
  (corpus_magnitude corpus < 2 ^ 63)%Z.

(** The token ids are in the range of scipy's 32-bit index arrays, so that
    an id outside the vocabulary reaches the shape check of the constructor
    as it is. *)
Definition ids_fit_int32 (corpus : list document) : Prop :=
  Forall (Forall (λ jc : Z * Z, (- 2 ^ 31 ≤ jc.1 < 2 ^ 31)%Z)) corpus.

(** The same bound for a matrix that is already built: column sums, row
    sums and the total stay within 64 bits. *)
Definition matrix_magnitude (M : csr_matrix) : Z :=
  Zsum ((λ r, Zsum (Z.abs <$> r)) <$> rows M).

Definition entries_fit_int64 (M : csr_matrix) : Prop :=
  (matrix_magnitude M < 2 ^ 63)%Z.

(** A float64 holds every whole number up to 2^53 exactly. *)
Definition float_exact (z : Z) : Prop := (Z.abs z ≤ 2 ^ 53)%Z.

(** With at most this many documents in the two groups together, every
    product of presence counts that [chi_square] forms for its denominator
    is a whole number that a float64 holds exactly. *)
Definition max_exact_users : Z := 9000.

(** A row with a nonzero entry. *)
Definition nonzero_row (r : list Z) : Prop := Exists (λ x, x ≠ 0%Z) r.

Global Instance nonzero_row_dec r : Decision (nonzero_row r).
Proof. unfold nonzero_row. apply _. Defined.

(** Lines 813-822: the two groups of the null baseline, cut from the
    shuffled stack of the two groups of the actual score. *)
Definition null_baseline_groups (R : Random) (RNG : rng_state R)
    (dem_counts rep_counts : csr_matrix) (dem_user_len : nat)
  : csr_matrix * csr_matrix :=
  let all_counts := vstack dem_counts rep_counts in
  let index := shuffle R RNG (seq 0 (nrows all_counts)) in
  let all_counts := select_rows index.1 all_counts in
  (rows_upto dem_user_len all_counts, rows_from dem_user_len all_counts).

(** The position of the [k]-th set flag of a mask: the column of the input
    that column [k] of a masked matrix comes from. *)
Fixpoint nth_true (mask : list bool) (k : nat) : option nat :=
  match mask with
  | [] => None
  | true :: mask' =>
      match k with
      | 0 => Some 0
      | S k' => S <$> nth_true mask' k'
      end
  | false :: mask' => S <$> nth_true mask' k
  end.

Section log_arguments.
Context (log2 : Qc → Qc).

(** The four values that [mutual_information] passes to [np.log2] for one
    token, in the order of lines 661-664. *)
Definition mi_log_arguments (dem_no rep_no : Z) (x : Z * Z * Z * Z) : list Qc :=
  let '(dem_t, rep_t, dem_not_t, rep_not_t) := x in
  let no_users := Qc_of_Z (dem_no + rep_no) in
  let all_t := Qc_of_Z (dem_t + rep_t) in
  let all_not_t := Qc_of_Z (dem_no + rep_no - (dem_t + rep_t) + 4) in
  [ no_users * (Qc_of_Z dem_t / (all_t * Qc_of_Z dem_no));
    no_users * (Qc_of_Z dem_not_t / (all_not_t * Qc_of_Z dem_no));
    no_users * (Qc_of_Z rep_t / (all_t * Qc_of_Z rep_no));
    no_users * (Qc_of_Z rep_not_t / (all_not_t * Qc_of_Z rep_no)) ]%Qc.

(** [mi_terms], written with [mi_log_arguments]: each count times the
    logarithm of its argument, added from left to right as in line 665. *)
Definition mi_terms_of_arguments (dem_no rep_no : Z) (x : Z * Z * Z * Z) : Qc :=
  match zip_with (λ count arg, count * log2 arg)%Qc
                 [Qc_of_Z x.1.1.1; Qc_of_Z x.1.2; Qc_of_Z x.1.1.2; Qc_of_Z x.2]
                 (mi_log_arguments dem_no rep_no x) with
  | [mi_dem_t; mi_dem_not_t; mi_rep_t; mi_rep_not_t] =>
      (mi_dem_t + mi_dem_not_t + mi_rep_t + mi_rep_not_t)%Qc
  | _ => 0%Qc
  end.
End log_arguments.

(** Three documents that use the first word only. *)
Definition only_first_word : csr_matrix := Csr 2 [[3; 0]; [3; 0]; [3; 0]]%Z.

(** A corpus with a token id that the three-word vocabulary does not have. *)
Definition unknown_id_corpus : list document := [[(0, 1)]; [(5, 1)]]%Z.

(** * Properties *)

(** ** Sums and the coordinate assembly *)

Lemma Zsum_app l1 l2 : Zsum (l1 ++ l2) = (Zsum l1 + Zsum l2)%Z.
Proof. induction l1 as [|x l1 IH]; simpl; [done | rewrite IH; lia]. Qed.

Lemma Zsum_replicate_0 n : Zsum (replicate n 0%Z) = 0%Z.
Proof. induction n; simpl; lia. Qed.

Lemma Zsum_alter_add c j (l : list Z) :
  j < length l → Zsum (alter (Z.add c) j l) = (c + Zsum l)%Z.
Proof.
  revert j. induction l as [|x l IH]; intros [|j] Hj; csimpl in *; try lia.
  rewrite IH by lia. lia.
Qed.

Lemma matrix_sum_add_entry V R e :
  Forall (λ r, length r = V) R → valid_entry (length R) V e →
  Zsum (Zsum <$> add_entry R e) = (e.2 + Zsum (Zsum <$> R))%Z.
Proof.
  destruct e as [[i j] c]. unfold valid_entry, add_entry. simpl.
  intros Hwf [Hi Hj]. revert i Hi.
  induction Hwf as [|r R Hr Hwf IH]; intros [|i] Hi; csimpl in *; try lia.
  - rewrite Zsum_alter_add by lia. lia.
  - rewrite IH by lia. lia.
Qed.

Lemma add_entry_length R e : length (add_entry R e) = length R.
Proof. apply length_alter. Qed.

Lemma add_entry_wf V R e :
  Forall (λ r, length r = V) R → Forall (λ r, length r = V) (add_entry R e).
Proof.
  intros Hwf. unfold add_entry. apply Forall_alter; [done|].
  intros r _ Hr. by rewrite length_alter.
Qed.

Lemma cell_add_entry V R e i j :
  Forall (λ r, length r = V) R → valid_entry (length R) V e →
  cell (add_entry R e) i j
  = (cell R i j + if decide (e.1.1 = i ∧ Z.to_nat e.1.2 = j) then e.2 else 0)%Z.
Proof.
  destruct e as [[i' j'] c]. unfold valid_entry, add_entry, cell. simpl.
  intros Hwf [Hi Hj].
  rewrite list_lookup_alter.
  destruct (lookup_lt_is_Some_2 R i' Hi) as [r Hr].
  assert (length r = V) as Hlen by (eapply Forall_lookup_1 in Hwf; eauto).
  destruct (lookup_lt_is_Some_2 r (Z.to_nat j') ltac:(lia)) as [x Hx].
  destruct (decide (i' = i)) as [->|Hne].
  - rewrite Hr. simpl. rewrite list_lookup_alter.
    destruct (decide (Z.to_nat j' = j)) as [<-|Hne].
    + rewrite Hx. simpl. rewrite decide_True by done. lia.
    + rewrite decide_False by tauto. lia.
  - rewrite decide_False by tauto. lia.
Qed.

Lemma foldl_add_entry_spec V es R :
  Forall (λ r, length r = V) R → Forall (valid_entry (length R) V) es →
  length (foldl add_entry R es) = length R
  ∧ Forall (λ r, length r = V) (foldl add_entry R es)
  ∧ Zsum (Zsum <$> foldl add_entry R es) = (Zsum (Zsum <$> R) + Zsum (snd <$> es))%Z
  ∧ ∀ i j, cell (foldl add_entry R es) i j = (cell R i j + matching i j es)%Z.
Proof.
  revert R. induction es as [|e es IH]; intros R Hwf Hes; csimpl.
  - repeat split; try done; try lia. intros i j. unfold matching. simpl. lia.
  - apply Forall_cons in Hes as [He Hes].
    destruct (IH (add_entry R e)) as (Hl & Hw & Hs & Hc).
    + by apply add_entry_wf.
    + by rewrite add_entry_length.
    + rewrite Hl, add_entry_length, Hs, (matrix_sum_add_entry V) by done.
      repeat split; try done; try lia.
      intros i j. rewrite Hc, (cell_add_entry V) by done.
      unfold matching. csimpl. lia.
Qed.

Lemma matching_app i j es1 es2 :
  matching i j (es1 ++ es2) = (matching i j es1 + matching i j es2)%Z.
Proof. unfold matching. by rewrite fmap_app, Zsum_app. Qed.

Lemma coo_from_valid V k corpus :
  Forall (Forall (λ jc : Z * Z, (0 ≤ jc.1 < Z.of_nat V)%Z)) corpus →
  Forall (valid_entry (k + length corpus) V) (coo_from k corpus).
Proof.
  intros H. revert k. induction H as [|doc rest Hdoc _ IH]; intros k; csimpl.
  - constructor.
  - apply Forall_app. split.
    + apply Forall_fmap. eapply Forall_impl; [exact Hdoc|].
      intros [j c] Hj. unfold valid_entry. simpl in *. lia.
    + replace (k + S (length rest)) with (S k + length rest) by lia. apply IH.
Qed.

Lemma coo_from_total k corpus :
  Zsum (snd <$> coo_from k corpus) = corpus_total corpus.
Proof.
  revert k. induction corpus as [|doc rest IH]; intros k; csimpl; [done|].
  rewrite fmap_app, Zsum_app, IH. unfold corpus_total. csimpl.
  f_equal. unfold doc_total. rewrite <- list_fmap_compose. done.
Qed.

Lemma matching_doc_other i j k (doc : document) :
  k ≠ i → matching i j ((λ jc, (k, jc.1, jc.2)) <$> doc) = 0%Z.
Proof.
  intros Hne. unfold matching. induction doc as [|jc doc IH]; csimpl; [done|].
  rewrite decide_False by tauto. rewrite IH. done.
Qed.

Lemma matching_doc_same i j (doc : document) :
  matching i j ((λ jc, (i, jc.1, jc.2)) <$> doc) = doc_count doc j.
Proof.
  unfold matching, doc_count. induction doc as [|jc doc IH]; csimpl; [done|].
  rewrite IH. f_equal. destruct (decide (Z.to_nat jc.1 = j)).
  - by rewrite decide_True.
  - rewrite decide_False by tauto. done.
Qed.

Lemma matching_coo_from i j k corpus :
  matching i j (coo_from k corpus)
  = if decide (k ≤ i)
    then default 0%Z ((λ doc, doc_count doc j) <$> corpus !! (i - k))
    else 0%Z.
Proof.
  revert k. induction corpus as [|doc rest IH]; intros k; csimpl.
  - by destruct (decide (k ≤ i)).
  - rewrite matching_app, IH.
    destruct (decide (k = i)) as [->|Hne].
    + rewrite matching_doc_same, decide_False, decide_True by lia.
      replace (i - i) with 0 by lia. simpl. lia.
    + rewrite matching_doc_other by done.
      destruct (decide (S k ≤ i)), (decide (k ≤ i)); try lia.
      replace (i - k) with (S (i - S k)) by lia. done.
Qed.

Lemma cell_zeros n V i j : cell (replicate n (replicate V 0%Z)) i j = 0%Z.
Proof.
  unfold cell. destruct (replicate n (replicate V 0%Z) !! i) as [r|] eqn:Hr; [|done].
  apply lookup_replicate in Hr as [-> _]. simpl.
  destruct (replicate V 0%Z !! j) as [x|] eqn:Hx; [|done].
  by apply lookup_replicate in Hx as [-> _].
Qed.

Lemma matrix_sum_zeros n V : Zsum (Zsum <$> replicate n (replicate V 0%Z)) = 0%Z.
Proof. induction n; csimpl; [done|]. rewrite Zsum_replicate_0. lia. Qed.

(** The builder succeeds on a corpus over the vocabulary, and its result is
    a well-formed matrix. *)
Lemma get_news_token_counts_ok corpus idx2word :
  corpus_in_vocab corpus idx2word →
  ∃ M, get_news_token_counts corpus idx2word = Ok M
       ∧ wf_matrix M
       ∧ nrows M = length corpus ∧ ncols M = length idx2word
       ∧ matrix_sum M = corpus_total corpus
       ∧ ∀ i j, entry M i j = matching i j (coo_from 0 corpus).
Proof.
  intros Hin. unfold get_news_token_counts, csr_from_coo.
  pose proof (coo_from_valid _ 0 _ Hin) as Hvalid. simpl in Hvalid.
  rewrite decide_True by done. eexists. split; [done|].
  set (Z0 := replicate (length corpus) (replicate (length idx2word) 0%Z)).
  destruct (foldl_add_entry_spec (length idx2word) (coo_from 0 corpus) Z0)
    as (Hl & Hw & Hs & Hc).
  - subst Z0. apply Forall_replicate. by rewrite length_replicate.
  - subst Z0. by rewrite length_replicate.
  - unfold wf_matrix, nrows, matrix_sum, entry. simpl.
    repeat split; try done.
    + rewrite Hl. subst Z0. by rewrite length_replicate.
    + rewrite Hs, coo_from_total. subst Z0. rewrite matrix_sum_zeros. lia.
    + intros i j. rewrite Hc. subst Z0. rewrite cell_zeros. lia.
Qed.

Lemma coo_from_valid_inv V n k corpus :
  Forall (valid_entry n V) (coo_from k corpus) →
  Forall (Forall (λ jc : Z * Z, (0 ≤ jc.1 < Z.of_nat V)%Z)) corpus.
Proof.
  revert k. induction corpus as [|doc rest IH]; intros k H; csimpl in *.
  - constructor.
  - apply Forall_app in H as [Hdoc Hrest]. constructor; [|by eapply IH].
    rewrite Forall_fmap in Hdoc. eapply Forall_impl; [exact Hdoc|].
    intros [j c] [_ Hj]. exact Hj.
Qed.

(** A token id outside the vocabulary makes the builder raise. *)
Lemma get_news_token_counts_out_of_vocab corpus idx2word :
  ¬ corpus_in_vocab corpus idx2word →
  get_news_token_counts corpus idx2word = Raise ValueError.
Proof.
  intros Hout. unfold get_news_token_counts, csr_from_coo.
  rewrite decide_False; [done|]. intros H. apply Hout.
  by eapply coo_from_valid_inv.
Qed.

(** The counts within the 64-bit range *)

Lemma doc_magnitude_nonneg doc : (0 ≤ doc_magnitude doc)%Z.
Proof. unfold doc_magnitude. induction doc as [|[j c] doc IH]; csimpl; lia. Qed.

Lemma doc_total_magnitude doc : (Z.abs (doc_total doc) ≤ doc_magnitude doc)%Z.
Proof.
  unfold doc_total, doc_magnitude. induction doc as [|[j c] doc IH]; csimpl; lia.
Qed.

Lemma doc_count_magnitude doc j : (Z.abs (doc_count doc j) ≤ doc_magnitude doc)%Z.
Proof.
  unfold doc_count, doc_magnitude. induction doc as [|[k c] doc IH]; csimpl; [lia|].
  destruct (decide (Z.to_nat k = j)); lia.
Qed.

Lemma corpus_magnitude_nonneg corpus : (0 ≤ corpus_magnitude corpus)%Z.
Proof.
  unfold corpus_magnitude. induction corpus as [|doc rest IH]; csimpl; [lia|].
  pose proof (doc_magnitude_nonneg doc). lia.
Qed.

Lemma corpus_total_magnitude corpus :
  (Z.abs (corpus_total corpus) ≤ corpus_magnitude corpus)%Z.
Proof.
  unfold corpus_total, corpus_magnitude.
  induction corpus as [|doc rest IH]; csimpl; [lia|].
  pose proof (doc_total_magnitude doc). lia.
Qed.

Lemma doc_magnitude_lookup corpus i doc :
  corpus !! i = Some doc → (doc_magnitude doc ≤ corpus_magnitude corpus)%Z.
Proof.
  unfold corpus_magnitude. revert i.
  induction corpus as [|d rest IH]; intros [|i] H; csimpl in *; try done.
  - injection H as ->. pose proof (corpus_magnitude_nonneg rest) as Hr.
    unfold corpus_magnitude in Hr. lia.
  - specialize (IH i H). pose proof (doc_magnitude_nonneg d). lia.
Qed.

(** C8. For a bag-of-words corpus over the vocabulary whose counts fit the
    64-bit entries of the matrix, [get_news_token_counts] returns a matrix
    of shape (number of documents, vocabulary size); the sum of its entries
    is the sum of all counts of the input; and entry [i, j] is the sum of
    the counts of all pairs of document [i] with token id [j], so that
    duplicate ids add up. The total and every entry are within the 64-bit
    range, so none of these sums wraps around. *)
Theorem get_news_token_counts_spec corpus idx2word :
  corpus_in_vocab corpus idx2word →
  counts_fit_int64 corpus →
  ∃ M, get_news_token_counts corpus idx2word = Ok M
       ∧ shape M = (length corpus, length idx2word)
       ∧ matrix_sum M = corpus_total corpus
       ∧ (∀ i doc j, corpus !! i = Some doc → entry M i j = doc_count doc j)
       ∧ (Z.abs (matrix_sum M) < 2 ^ 63)%Z
       ∧ (∀ i j, Z.abs (entry M i j) < 2 ^ 63)%Z.
Proof.
  intros Hin Hfit. unfold counts_fit_int64 in Hfit.
  destruct (get_news_token_counts_ok corpus idx2word Hin)
    as (M & HM & _ & Hn & HV & Hsum & Hentry).
  exists M. split; [done|]. split; [|split; [done|split; [|split]]].
  - unfold shape. by rewrite Hn, HV.
  - intros i doc j Hdoc. rewrite Hentry, matching_coo_from.
    rewrite decide_True by lia. replace (i - 0) with i by lia.
    by rewrite Hdoc.
  - rewrite Hsum. pose proof (corpus_total_magnitude corpus). lia.
  - intros i j. rewrite Hentry, matching_coo_from.
    rewrite decide_True by lia. replace (i - 0) with i by lia.
    destruct (corpus !! i) as [doc|] eqn:Hdoc; simpl.
    + pose proof (doc_count_magnitude doc j).
      pose proof (doc_magnitude_lookup corpus i doc Hdoc). lia.
    + pose proof (corpus_magnitude_nonneg corpus). lia.
Qed.

(** ** Presence counts *)

Lemma occurrences_app k l1 l2 :
  occurrences k (l1 ++ l2) = occurrences k l1 + occurrences k l2.
Proof. unfold occurrences. by rewrite filter_app, length_app. Qed.

Lemma occurrences_cons k x l :
  occurrences k (x :: l) = (if decide (x = k) then 1 else 0) + occurrences k l.
Proof.
  unfold occurrences. rewrite filter_cons. by destruct (decide (x = k)).
Qed.

Lemma Counter_foldl_lookup k l (m : gmap nat Z) :
  default 0%Z (foldl (λ m k, <[k := (default 0 (m !! k) + 1)%Z]> m) m l !! k)
  = (default 0 (m !! k) + Z.of_nat (occurrences k l))%Z.
Proof.
  revert m. induction l as [|x l IH]; intros m; csimpl.
  - unfold occurrences. simpl. lia.
  - rewrite IH, occurrences_cons. destruct (decide (x = k)) as [->|Hne].
    + rewrite lookup_insert_eq. simpl. lia.
    + rewrite lookup_insert_ne by done. lia.
Qed.

Lemma Counter_lookup k l :
  default 0%Z (Counter l !! k) = Z.of_nat (occurrences k l).
Proof. unfold Counter. rewrite Counter_foldl_lookup, lookup_empty. simpl. lia. Qed.

Lemma add_counts_lookup (m : gmap nat Z) (t0 : list Z) j :
  map_fold (λ k v party_t, alter (Z.add v) k party_t) t0 m !! j
  = (λ x, x + default 0 (m !! j))%Z <$> t0 !! j.
Proof.
  apply (map_fold_weak_ind
           (λ t m, t !! j = (λ x, x + default 0 (m !! j))%Z <$> t0 !! j)).
  - rewrite lookup_empty. simpl. destruct (t0 !! j); simpl; f_equal; lia.
  - intros k v m' t Hk IH. rewrite list_lookup_alter.
    destruct (decide (k = j)) as [->|Hne].
    + rewrite IH, Hk, lookup_insert_eq. simpl.
      destruct (t0 !! j); simpl; f_equal; lia.
    + rewrite IH, lookup_insert_ne by done. done.
Qed.

Lemma occurrences_nonzero_from k j0 r :
  occurrences k (nonzero_from j0 r)
  = if decide (j0 ≤ k ∧ default 0%Z (r !! (k - j0)) ≠ 0%Z) then 1 else 0.
Proof.
  revert j0. induction r as [|x r IH]; intros j0; csimpl.
  - unfold occurrences. simpl. rewrite decide_False; [done|]. intros [_ H]. done.
  - assert (occurrences k (nonzero_from (S j0) r)
            = if decide (j0 < k ∧ default 0%Z (r !! (k - S j0)) ≠ 0%Z) then 1 else 0)
      as IH'.
    { rewrite IH. destruct (decide (S j0 ≤ k ∧ _)), (decide (j0 < k ∧ _)); try done; lia. }
    destruct (decide (j0 = k)) as [->|Hne].
    + replace (k - k) with 0 by lia. simpl.
      destruct (decide (x = 0%Z)) as [->|Hx].
      * rewrite IH'. rewrite !decide_False; [done|tauto|lia].
      * rewrite occurrences_cons, IH', decide_True by done.
        rewrite decide_False by lia. by rewrite decide_True.
    + assert (occurrences k (nonzero_from (S j0) r)
              = if decide (j0 ≤ k ∧ default 0%Z ((x :: r) !! (k - j0)) ≠ 0%Z)
                then 1 else 0) as IH''.
      { rewrite IH'. destruct (decide (j0 < k)) as [Hlt|Hge].
        - replace (k - j0) with (S (k - S j0)) by lia. simpl.
          destruct (decide (j0 < k ∧ _)), (decide (j0 ≤ k ∧ _)); try done;
            exfalso; intuition lia.
        - rewrite !decide_False; [done| |]; intros [? _]; lia. }
      destruct (decide (x = 0%Z)); [done|].
      rewrite occurrences_cons, decide_False by done. done.
Qed.

Lemma occurrences_nonzero_rows k i R :
  occurrences k (snd <$> nonzero_rows_from i R) = presence R k.
Proof.
  revert i. induction R as [|r R IH]; intros i; csimpl; [done|].
  rewrite fmap_app, occurrences_app, IH, <- list_fmap_compose.
  unfold compose. simpl. rewrite list_fmap_id.
  rewrite occurrences_nonzero_from. replace (k - 0) with k by lia.
  unfold presence. rewrite filter_cons.
  destruct (decide (default 0%Z (r !! k) ≠ 0%Z)).
  - rewrite decide_True by (split; [lia|done]). done.
  - rewrite decide_False by tauto. done.
Qed.

Lemma get_token_user_counts_lookup M j :
  get_token_user_counts M !! j
  = if decide (j < ncols M) then Some (1 + Z.of_nat (presence (rows M) j))%Z else None.
Proof.
  unfold get_token_user_counts. rewrite add_counts_lookup, Counter_lookup.
  unfold nonzero. rewrite occurrences_nonzero_rows.
  destruct (decide (j < ncols M)) as [Hj|Hj].
  - by rewrite lookup_replicate_2.
  - rewrite (proj1 (lookup_replicate_None _ _ _)) by lia. done.
Qed.

Lemma get_token_user_counts_length M :
  length (get_token_user_counts M) = ncols M.
Proof.
  destruct (decide (length (get_token_user_counts M) < ncols M)) as [Hlt|Hge].
  - pose proof (get_token_user_counts_lookup M (length (get_token_user_counts M))) as H.
    rewrite decide_True in H by done.
    apply lookup_lt_Some in H. lia.
  - destruct (decide (ncols M < length (get_token_user_counts M))) as [Hgt|]; [|lia].
    apply lookup_lt_is_Some_2 in Hgt as [x Hx].
    rewrite get_token_user_counts_lookup, decide_False in Hx by lia. done.
Qed.

Lemma decrement_lookup ks (t : list Z) j :
  foldl (λ leaveout_t term_idx, alter (λ x, x - 1)%Z term_idx leaveout_t) t ks !! j
  = (λ x, x - Z.of_nat (occurrences j ks))%Z <$> t !! j.
Proof.
  revert t. induction ks as [|k ks IH]; intros t; csimpl.
  - unfold occurrences. simpl. destruct (t !! j); simpl; f_equal; lia.
  - rewrite IH, occurrences_cons, list_lookup_alter.
    destruct (decide (k = j)) as [->|Hne];
      destruct (t !! j); simpl; f_equal; lia.
Qed.

Lemma presence_delete R i j :
  presence (delete i R) j
  = presence R j - (if decide (default 0%Z (default [] (R !! i) !! j) ≠ 0%Z) then 1 else 0).
Proof.
  unfold presence. revert i. induction R as [|r R IH]; intros [|i]; csimpl.
  - done.
  - done.
  - rewrite filter_cons. destruct (decide (default 0%Z (r !! j) ≠ 0%Z)); simpl; lia.
  - rewrite !filter_cons.
    destruct (decide (default 0%Z (r !! j) ≠ 0%Z)); simpl; rewrite IH; [|done].
    destruct (decide (default 0%Z (default [] (R !! i) !! j) ≠ 0%Z)) as [Hnz|]; [|lia].
    assert (0 < length (filter (λ r0 : list Z, default 0%Z (r0 !! j) ≠ 0%Z) R)); [|lia].
    destruct (R !! i) as [ri|] eqn:Hri; [|done]. simpl in Hnz.
    assert (ri ∈ filter (λ r0 : list Z, default 0%Z (r0 !! j) ≠ 0%Z) R) as Hin.
    { apply list_elem_of_filter. split; [done|]. by eapply list_elem_of_lookup_2. }
    destruct (filter _ R); [by apply elem_of_nil in Hin | simpl; lia].
Qed.

Lemma presence_le R j : presence R j ≤ length R.
Proof. unfold presence. apply length_filter. Qed.

(** C4. For every count matrix and every row index [i] of it, the presence
    counts that the leave-out loop obtains by copying
    [get_token_user_counts C] and taking 1 off every token with a nonzero
    entry in row [i] are the presence counts of [C] without row [i]. *)
Theorem leaveout_token_user_counts_correct (C : csr_matrix) (i : nat) :
  i < nrows C →
  leaveout_token_user_counts (get_token_user_counts C) C i
  = get_token_user_counts (remove_row C i).
Proof.
  intros Hi. apply list_eq. intros j.
  unfold leaveout_token_user_counts.
  rewrite decrement_lookup, !get_token_user_counts_lookup. simpl.
  destruct (decide (j < ncols C)); [|done]. simpl. f_equal.
  rewrite presence_delete, occurrences_nonzero_from.
  replace (j - 0) with j by lia. unfold get_row.
  destruct (decide (default 0%Z (default [] (rows C !! i) !! j) ≠ 0%Z)) as [Hnz|Hz].
  - rewrite decide_True by (split; [lia|done]).
    assert (0 < presence (rows C) j); [|lia].
    destruct (rows C !! i) as [ri|] eqn:Hri; [|done]. simpl in Hnz.
    unfold presence.
    assert (ri ∈ filter (λ r0 : list Z, default 0%Z (r0 !! j) ≠ 0%Z) (rows C)) as Hin.
    { apply list_elem_of_filter. split; [done|]. by eapply list_elem_of_lookup_2. }
    destruct (filter _ (rows C)); [by apply elem_of_nil in Hin | simpl; lia].
  - rewrite decide_False by tauto. lia.
Qed.

(** ** The chi-square denominator *)

Lemma zip4_lookup a b c d j (x : Z * Z * Z * Z) :
  zip4 a b c d !! j = Some x →
  a !! j = Some x.1.1.1 ∧ b !! j = Some x.1.1.2
  ∧ c !! j = Some x.1.2 ∧ d !! j = Some x.2.
Proof.
  unfold zip4. intros H.
  apply lookup_zip_with_Some in H as (xyz & w & -> & H & Hd).
  apply lookup_zip_with_Some in H as (xy & z & -> & H & Hc).
  apply lookup_zip_with_Some in H as (x' & y & -> & Ha & Hb).
  done.
Qed.

Lemma get_token_user_counts_bounds M :
  Forall (λ t, 1 ≤ t ≤ Z.of_nat (nrows M) + 1)%Z (get_token_user_counts M).
Proof.
  apply Forall_lookup. intros j t Ht.
  rewrite get_token_user_counts_lookup in Ht.
  destruct (decide (j < ncols M)); [|done].
  injection Ht as <-. pose proof (presence_le (rows M) j). unfold nrows. lia.
Qed.

Lemma complement_counts_lookup n t j :
  complement_counts n t !! j = (λ x, n - x + 2)%Z <$> t !! j.
Proof. unfold complement_counts. apply list_lookup_fmap. Qed.

Lemma chi_denom_positive n1 n2 (x : Z * Z * Z * Z) :
  (1 ≤ x.1.1.1 ≤ n1 + 1)%Z → (1 ≤ x.1.1.2 ≤ n2 + 1)%Z →
  x.1.2 = (n1 - x.1.1.1 + 2)%Z → x.2 = (n2 - x.1.1.2 + 2)%Z →
  (0 < chi_denom n1 n2 x)%Z.
Proof.
  destruct x as [[[a b] c] d]. simpl. intros Ha Hb -> ->.
  repeat apply Z.mul_pos_pos; lia.
Qed.

(** C10. With the presence counts of [get_token_user_counts] (each at least
    1 and at most the group size plus 1) and the complements
    [n - presence + 2] of lines 692-695, the denominator of [chi_square] is
    strictly positive for every token. *)
Theorem chi_square_denominator_positive (dem_counts rep_counts : csr_matrix) :
  let dem_no := Z.of_nat (nrows dem_counts) in
  let rep_no := Z.of_nat (nrows rep_counts) in
  let dem_t := get_token_user_counts dem_counts in
  let rep_t := get_token_user_counts rep_counts in
  let dem_not_t := complement_counts dem_no dem_t in
  let rep_not_t := complement_counts rep_no rep_t in
  Forall (λ t, 1 ≤ t ≤ dem_no + 1)%Z dem_t
  ∧ Forall (λ t, 1 ≤ t ≤ rep_no + 1)%Z rep_t
  ∧ Forall (λ x, 0 < chi_denom dem_no rep_no x)%Z
           (zip4 dem_t rep_t dem_not_t rep_not_t).
Proof.
  intros dem_no rep_no dem_t rep_t dem_not_t rep_not_t.
  pose proof (get_token_user_counts_bounds dem_counts) as Hdem.
  pose proof (get_token_user_counts_bounds rep_counts) as Hrep.
  repeat split; try done.
  apply Forall_lookup. intros j x Hx.
  apply zip4_lookup in Hx as (Ha & Hb & Hc & Hd).
  subst dem_not_t rep_not_t. rewrite complement_counts_lookup in Hc, Hd.
  fold dem_t in Hc. fold rep_t in Hd. rewrite Ha in Hc. rewrite Hb in Hd.
  injection Hc as Hc. injection Hd as Hd.
  apply chi_denom_positive; try done.
  - eapply Forall_lookup_1 in Hdem; eauto.
  - eapply Forall_lookup_1 in Hrep; eauto.
Qed.

(** ** [get_party_q] and the excluded document *)

Lemma Zsum_fmap_delete {A} (f : A → Z) (l : list A) i x :
  l !! i = Some x → Zsum (f <$> delete i l) = (Zsum (f <$> l) - f x)%Z.
Proof.
  revert i. induction l as [|y l IH]; intros [|i] Hi; csimpl in *; try done.
  - injection Hi as ->. lia.
  - rewrite (IH i Hi). lia.
Qed.

Lemma sum_axis0_lookup M j :
  sum_axis0 M !! j
  = if decide (j < ncols M)
    then Some (Zsum ((λ r, default 0%Z (r !! j)) <$> rows M)) else None.
Proof.
  unfold sum_axis0. rewrite list_lookup_fmap.
  destruct (decide (j < ncols M)) as [Hj|Hj].
  - by rewrite lookup_seq_lt.
  - by rewrite lookup_seq_ge by lia.
Qed.

Lemma sum_axis0_remove_row M i :
  wf_matrix M → i < nrows M →
  sum_axis0 (remove_row M i) = zip_with Z.sub (sum_axis0 M) (get_row M i).
Proof.
  intros Hwf Hi. apply list_eq. intros j.
  destruct (lookup_lt_is_Some_2 (rows M) i Hi) as [r Hr].
  assert (length r = ncols M) as Hlen by (eapply Forall_lookup_1 in Hwf; eauto).
  unfold get_row. rewrite Hr. simpl.
  rewrite lookup_zip_with, !sum_axis0_lookup. simpl.
  destruct (decide (j < ncols M)) as [Hj|Hj]; [|done]. simpl.
  destruct (lookup_lt_is_Some_2 r j ltac:(lia)) as [x Hx]. rewrite Hx. simpl.
  f_equal. rewrite (Zsum_fmap_delete _ _ _ _ Hr), Hx. done.
Qed.

(** Away from index 0 the exclusion works: for a row index [e > 0],
    [get_party_q C e] is the distribution of [C] without row [e]. *)
Lemma get_party_q_excludes_positive M e :
  wf_matrix M → S e < nrows M →
  get_party_q M (Some (S e)) = get_party_q (remove_row M (S e)) None.
Proof.
  intros Hwf He. unfold get_party_q. simpl.
  by rewrite sum_axis0_remove_row.
Qed.

Lemma Qc_list_neq (l1 l2 : list Qc) :
  (this <$> l1) ≠ (this <$> l2) → l1 ≠ l2.
Proof. intros H ->. done. Qed.

(** C1. [if exclude_user_id:] is false for index 0, so for the first
    document of a group nothing is left out: on [two_users],
    [get_party_q C 0] is the distribution of all of [C], which is (1/2, 1/2),
    and not that of [C] without row 0, which is (0, 1); and the same on any
    matrix. *)
Theorem get_party_q_keeps_row_0 :
  (∀ C, get_party_q C (Some 0) = get_party_q C None)
  ∧ this <$> get_party_q two_users (Some 0) = [1 # 2; 1 # 2]%Q
  ∧ this <$> get_party_q (remove_row two_users 0) None = [0; 1]%Q
  ∧ get_party_q two_users (Some 0) ≠ get_party_q (remove_row two_users 0) None.
Proof.
  repeat split.
  apply Qc_list_neq. vm_compute. discriminate.
Qed.

(** ** The truncation to [max_docs] *)

Lemma truncate_docs_id max_docs counts : truncate_docs max_docs counts = counts.
Proof.
  unfold truncate_docs, rows_upto. case_bool_decide; [|done].
  destruct counts as [V R]. unfold nrows. simpl.
  rewrite Nat2Z.id, take_ge by lia. done.
Qed.

(** C2. The slice of lines 768-771 ends at the group's own length, so no
    row is dropped: [truncate_docs] returns its argument, and with three
    documents per group, [min_docs = 1] and [max_docs = 2] both groups go on
    with three rows. *)
Theorem truncate_docs_keeps_all_rows :
  (∀ max_docs counts, truncate_docs max_docs counts = counts)
  ∧ (get_news_token_counts three_docs ["a"%string]
     = Ok (Csr 1 [[1]; [1]; [1]]%Z))
  ∧ nrows (truncate_docs 2 (Csr 1 [[1]; [1]; [1]]%Z)) = 3
  ∧ (prepare_counts counting_random environment0 three_docs three_docs
                    ["a"%string] 1 2).2
    = Ok (Prepared counting_random (Csr 1 [[1]; [1]; [1]]%Z)
                   (Csr 1 [[1]; [1]; [1]]%Z) 3 3 (42 : rng_state counting_random)).
Proof.
  split; [exact truncate_docs_id|]. repeat split; vm_compute; reflexivity.
Qed.

(** ** The guard on the measure *)

Lemma Zsum_nonneg l : Forall (λ x, 0 ≤ x)%Z l → (0 ≤ Zsum l)%Z.
Proof. induction 1; simpl; lia. Qed.

Lemma Zsum_pos l :
  Forall (λ x, 0 ≤ x)%Z l → Exists (λ x, x ≠ 0%Z) l → (0 < Zsum l)%Z.
Proof.
  intros Hnn Hex. induction Hex as [x l Hx|x l Hex IH].
  - apply Forall_cons in Hnn as [H0 Hnn]. apply Zsum_nonneg in Hnn. simpl. lia.
  - apply Forall_cons in Hnn as [H0 Hnn]. specialize (IH Hnn). simpl. lia.
Qed.

Lemma all_rows_nonzero_true (party_user_total : list Z) :
  Forall (λ x, x ≠ 0%Z) party_user_total →
  all_rows_nonzero party_user_total = true.
Proof.
  intros Hall. unfold all_rows_nonzero. apply bool_decide_eq_true.
  apply set_eq. intros i.
  rewrite !elem_of_list_to_set, list_elem_of_filter, elem_of_seq.
  split; [tauto|]. intros [H0 Hi]. split; [|done].
  destruct (lookup_lt_is_Some_2 party_user_total i ltac:(lia)) as [x Hx].
  rewrite Hx. simpl. eapply Forall_lookup_1 in Hall; eauto.
Qed.

Lemma assert_no_zero_rows M :
  counts_nonneg M → no_zero_rows M → all_rows_nonzero (sum_axis1 M) = true.
Proof.
  intros Hnn Hnz. apply all_rows_nonzero_true. unfold sum_axis1.
  apply Forall_fmap. apply Forall_lookup. intros i r Hr. simpl.
  eapply Forall_lookup_1 in Hnn; eauto. eapply Forall_lookup_1 in Hnz; eauto.
  pose proof (Zsum_pos r Hnn Hnz). lia.
Qed.

(** C5. For count matrices without all-zero rows and a measure that is
    none of posterior, mutual_information and chi_square,
    [calculate_polarization] prints its message and returns [None]; it does
    not raise, with and without leave-out. *)
Theorem calculate_polarization_invalid_measure log2 dem_counts rep_counts
    measure leaveout :
  counts_nonneg dem_counts → counts_nonneg rep_counts →
  no_zero_rows dem_counts → no_zero_rows rep_counts →
  measure ∉ valid_measures →
  calculate_polarization log2 dem_counts rep_counts measure leaveout
  = ([Text "invalid method"], Ok None).
Proof.
  intros Hd Hr Hdz Hrz Hm. unfold calculate_polarization.
  rewrite !assert_no_zero_rows by done.
  rewrite bool_decide_eq_true_2 by done. reflexivity.
Qed.

(** ** The pipeline *)

Lemma counting_random_spec : RandomSpec counting_random.
Proof.
  split; simpl.
  - done.
  - intros _ n k _. apply length_seq.
  - intros _ n k Hk. apply Forall_seq. intros j Hj. lia.
  - intros _ l. apply reverse_Permutation.
Qed.

Lemma prepare_counts_too_few R env corpus1 corpus2 id2word min_docs max_docs :
  corpus_in_vocab corpus1 id2word → corpus_in_vocab corpus2 id2word →
  (Z.of_nat (length corpus1) < min_docs ∨ Z.of_nat (length corpus2) < min_docs)%Z →
  prepare_counts R env corpus1 corpus2 id2word min_docs max_docs
  = ([], Ok (TooFewDocs R (Z.of_nat (length corpus1) + Z.of_nat (length corpus2)))).
Proof.
  intros H1 H2 Hfew. unfold prepare_counts.
  destruct (get_news_token_counts_ok _ _ H1) as (M1 & -> & _ & Hn1 & _).
  destruct (get_news_token_counts_ok _ _ H2) as (M2 & -> & _ & Hn2 & _).
  unfold bind, lift. simpl. rewrite Hn1, Hn2.
  rewrite bool_decide_eq_true_2 by done. reflexivity.
Qed.


Lemma prepare_counts_environment R env1 env2 corpus1 corpus2 id2word
    min_docs max_docs :
  RandomSpec R →
  prepare_counts R env1 corpus1 corpus2 id2word min_docs max_docs
  = prepare_counts R env2 corpus1 corpus2 id2word min_docs max_docs.
Proof.
  intros HR. unfold prepare_counts.
  by rewrite (seed_reinit R HR (os_entropy env1) (os_entropy env2)).
Qed.

(** C9. [get_leaveout_score] is deterministic: with the same corpora,
    vocabulary and configuration, two runs print and return the same,
    whatever the state of the global generator and whatever state the new
    private generator starts from, because the private generator is seeded
    with the constant 42 before its first use. *)
Theorem get_leaveout_score_deterministic log2 R env1 env2 corpus1 corpus2 id2word
    measure leaveout default_score min_docs max_docs :
  RandomSpec R →
  get_leaveout_score log2 R env1 corpus1 corpus2 id2word measure leaveout
                     default_score min_docs max_docs
  = get_leaveout_score log2 R env2 corpus1 corpus2 id2word measure leaveout
                       default_score min_docs max_docs.
Proof.
  intros HR. unfold get_leaveout_score.
  by rewrite (prepare_counts_environment R env1 env2).
Qed.

(** *** Row counts through the stages *)


Lemma balance_groups_rows R RNG dem_counts rep_counts :
  RandomSpec R →
  nrows (balance_groups R RNG dem_counts rep_counts).1.1
  = nrows (balance_groups R RNG dem_counts rep_counts).1.2.
Proof.
  intros HR. unfold balance_groups.
  destruct (decide (nrows rep_counts < nrows dem_counts)) as [Hlt|Hge]; simpl.
  - unfold nrows at 1. simpl. rewrite length_fmap.
    apply (sample_length R HR). lia.
  - destruct (decide (nrows dem_counts < nrows rep_counts)) as [Hlt|Hge']; simpl.
    + unfold nrows at 2. simpl. rewrite length_fmap.
      symmetry. apply (sample_length R HR). lia.
    + lia.
Qed.





(** ** Laws of the printing-and-raising computations *)

Lemma bind_ret_l {A B} (a : A) (k : A → M B) : bind (ret a) k = k a.
Proof. unfold bind, ret. simpl. by destruct (k a). Qed.

Lemma bind_assoc {A B C} (m : M A) (k : A → M B) (h : B → M C) :
  bind (bind m k) h = bind m (λ a, bind (k a) h).
Proof.
  unfold bind. destruct m as [out [a|e]]; simpl; [|done].
  destruct (k a) as [out' [b|e]]; simpl; [|done].
  by rewrite app_assoc.
Qed.

Lemma bind_ext {A B} (m : M A) (k k' : A → M B) :
  (∀ a, k a = k' a) → bind m k = bind m k'.
Proof. intros H. unfold bind. destruct m as [out [a|e]]; simpl; by rewrite ?H. Qed.

Lemma bind_swap {A B C} e (m1 : M A) (m2 : M B) (k : A → B → M C) :
  only_raises e m1 → only_raises e m2 →
  bind m1 (λ a, bind m2 (λ b, k a b)) = bind m2 (λ b, bind m1 (λ a, k a b)).
Proof.
  destruct m1 as [o1 [a|e1]], m2 as [o2 [b|e2]]; unfold only_raises, bind; simpl;
    intros [-> H1] [-> H2]; try done.
  by rewrite (H1 e1 eq_refl), (H2 e2 eq_refl).
Qed.

Lemma only_raises_ret {A} e (a : A) : only_raises e (ret a).
Proof. by split. Qed.

Lemma only_raises_bind {A B} e (m : M A) (k : A → M B) :
  only_raises e m → (∀ a, only_raises e (k a)) → only_raises e (bind m k).
Proof.
  destruct m as [o [a|e1]]; unfold only_raises, bind; simpl; intros [-> H1] Hk.
  - destruct (Hk a) as [-> H2]. done.
  - split; [done|]. intros e' [= <-]. by apply H1.
Qed.

Lemma only_raises_assert b : only_raises AssertionError (assert b).
Proof. destruct b; split; simpl; congruence. Qed.

Lemma only_raises_py_div a b : only_raises ZeroDivisionError (py_div a b).
Proof. unfold py_div. destruct (decide (b = 0%Z)); split; simpl; congruence. Qed.

Lemma for_each_ext {A} (body body' : nat → A → M A) idx acc :
  (∀ i a, body i a = body' i a) → for_each body idx acc = for_each body' idx acc.
Proof.
  intros H. revert acc. induction idx as [|i idx IH]; intros acc; simpl; [done|].
  rewrite H. by apply bind_ext.
Qed.

Lemma only_raises_for_each {A} e (body : nat → A → M A) idx acc :
  (∀ i a, only_raises e (body i a)) → only_raises e (for_each body idx acc).
Proof.
  intros H. revert acc. induction idx as [|i idx IH]; intros acc; simpl.
  - apply only_raises_ret.
  - by apply only_raises_bind.
Qed.

(** ** Exchanging the two groups *)

Lemma zip4_swap a b c d : zip4 b a d c = swap_groups <$> zip4 a b c d.
Proof.
  unfold zip4. revert b c d.
  induction a as [|x a IH]; intros [|y b] [|z c] [|w d]; try done.
  csimpl. f_equal. apply IH.
Qed.

Lemma chi_enum_swap n1 n2 x :
  chi_enum n2 n1 (swap_groups x) = chi_enum n1 n2 x.
Proof. destruct x as [[[a b] c] d]. unfold chi_enum, swap_groups. simpl. ring. Qed.

Lemma chi_denom_swap n1 n2 x :
  chi_denom n2 n1 (swap_groups x) = chi_denom n1 n2 x.
Proof. destruct x as [[[a b] c] d]. unfold chi_denom, swap_groups. simpl. ring. Qed.

Lemma chi_square_swap a b c d n1 n2 :
  chi_square b a d c n2 n1 = chi_square a b c d n1 n2.
Proof.
  unfold chi_square. rewrite zip4_swap, <- list_fmap_compose. f_equal.
  apply list_fmap_ext. intros _ x _. unfold compose.
  by rewrite chi_enum_swap, chi_denom_swap.
Qed.

(** [func] for chi_square *)
Lemma func_chi_square log2 : func log2 "chi_square" = chi_square.
Proof. unfold func. by rewrite decide_False. Qed.

(** The values that [mutual_information] passes to [np.log2] for a token
    are the same four numbers after the exchange, the pair of group 2 now
    before the pair of group 1: line 665 adds the same four terms in another
    order. *)
Lemma mi_log_arguments_swap n1 n2 x :
  mi_log_arguments n2 n1 (swap_groups x)
  = drop 2 (mi_log_arguments n1 n2 x) ++ take 2 (mi_log_arguments n1 n2 x).
Proof.
  destruct x as [[[a b] c] d]. unfold mi_log_arguments, swap_groups. simpl.
  replace (n2 + n1)%Z with (n1 + n2)%Z by lia.
  replace (b + a)%Z with (a + b)%Z by lia.
  reflexivity.
Qed.

Lemma only_raises_func log2 measure a b c d n1 n2 :
  only_raises ZeroDivisionError (func log2 measure a b c d n1 n2).
Proof.
  unfold func. destruct (decide (measure = "mutual_information"%string)).
  - unfold mutual_information. apply only_raises_bind.
    + apply only_raises_py_div.
    + intros inv. apply only_raises_ret.
  - apply only_raises_ret.
Qed.

Lemma leaveout_scores_swap log2 A B i :
  leaveout_scores_dem log2 A B "chi_square" i
  = leaveout_scores_rep log2 B A "chi_square" i.
Proof.
  unfold leaveout_scores_dem, leaveout_scores_rep.
  rewrite !decide_False by done. rewrite func_chi_square. by rewrite chi_square_swap.
Qed.

Lemma only_raises_leaveout_scores_dem log2 A B measure i :
  only_raises ZeroDivisionError (leaveout_scores_dem log2 A B measure i).
Proof.
  unfold leaveout_scores_dem. destruct (decide (measure = "posterior"%string)).
  - apply only_raises_ret.
  - apply only_raises_func.
Qed.

Lemma only_raises_leaveout_scores_rep log2 A B measure i :
  only_raises ZeroDivisionError (leaveout_scores_rep log2 A B measure i).
Proof.
  unfold leaveout_scores_rep. destruct (decide (measure = "posterior"%string)).
  - apply only_raises_ret.
  - apply only_raises_func.
Qed.

Lemma token_scores_shared log2 A B measure :
  measure ≠ "posterior"%string →
  token_scores log2 A B measure
  = bind (func log2 measure (get_token_user_counts A) (get_token_user_counts B)
               (complement_counts (Z.of_nat (nrows A)) (get_token_user_counts A))
               (complement_counts (Z.of_nat (nrows B)) (get_token_user_counts B))
               (Z.of_nat (nrows A)) (Z.of_nat (nrows B)))
         (λ s, ret (s, s)).
Proof. intros Hm. unfold token_scores. by rewrite decide_False. Qed.

Lemma bind_cong {A B} (m m' : M A) (k k' : A → M B) :
  m = m' → (∀ a, k a = k' a) → bind m k = bind m' k'.
Proof. intros ->. apply bind_ext. Qed.

Lemma symmetric_measure_valid measure :
  measure = "mutual_information"%string ∨ measure = "chi_square"%string →
  measure ≠ "posterior"%string ∧ bool_decide (measure ∉ valid_measures) = false.
Proof. intros [-> | ->]; split; done. Qed.

(** The presence counts inside the leave-out loops *)

Lemma leaveout_counts_lookup C i j :
  leaveout_token_user_counts (get_token_user_counts C) C i !! j
  = if decide (j < ncols C)
    then Some (1 + Z.of_nat (presence (delete i (rows C)) j))%Z else None.
Proof.
  unfold leaveout_token_user_counts.
  rewrite decrement_lookup, get_token_user_counts_lookup.
  destruct (decide (j < ncols C)); [|done]. simpl. f_equal.
  rewrite presence_delete, occurrences_nonzero_from, Nat.sub_0_r. unfold get_row.
  destruct (decide (default 0%Z (default [] (rows C !! i) !! j) ≠ 0%Z)) as [Hnz|Hz].
  - rewrite decide_True by (split; [lia|done]).
    assert (0 < presence (rows C) j); [|lia].
    destruct (rows C !! i) as [ri|] eqn:Hri; [|done]. simpl in Hnz.
    unfold presence.
    assert (ri ∈ filter (λ r0 : list Z, default 0%Z (r0 !! j) ≠ 0%Z) (rows C)) as Hin.
    { apply list_elem_of_filter. split; [done|]. by eapply list_elem_of_lookup_2. }
    destruct (filter _ (rows C)); [by apply elem_of_nil in Hin | simpl; lia].
  - rewrite decide_False by tauto. lia.
Qed.

Lemma leaveout_counts_bounds C i :
  i < nrows C →
  Forall (λ t, 1 ≤ t ≤ (Z.of_nat (nrows C) - 1) + 1)%Z
         (leaveout_token_user_counts (get_token_user_counts C) C i).
Proof.
  intros Hi. apply Forall_lookup. intros j t Ht.
  rewrite leaveout_counts_lookup in Ht.
  destruct (decide (j < ncols C)); [|done]. injection Ht as <-.
  pose proof (presence_le (delete i (rows C)) j) as Hle.
  rewrite length_delete in Hle by (by apply lookup_lt_is_Some_2).
  unfold nrows in *. lia.
Qed.

(** For chi_square the exchange of the two groups changes the order of two
    assertions, of two divisions of Python integers and of the two operands
    of the last addition, and nothing else. *)
Lemma calculate_polarization_swap log2 A B leaveout :
  calculate_polarization log2 A B "chi_square" leaveout
  = calculate_polarization log2 B A "chi_square" leaveout.
Proof.
  unfold calculate_polarization.
  replace (bool_decide ("chi_square"%string ∉ valid_measures)) with false by done.
  etrans; [apply (bind_swap AssertionError); apply only_raises_assert|].
  apply bind_ext. intros _. apply bind_ext. intros _.
  destruct leaveout; simpl negb; cbv iota.
  - etrans.
    { apply (bind_swap ZeroDivisionError); apply only_raises_for_each; intros i a;
        (apply only_raises_bind; [|intros; apply only_raises_ret]).
      - apply only_raises_leaveout_scores_dem.
      - apply only_raises_leaveout_scores_rep. }
    apply bind_cong.
    { apply for_each_ext. intros i a. by rewrite leaveout_scores_swap. }
    intros x. apply bind_cong.
    { apply for_each_ext. intros i a. by rewrite leaveout_scores_swap. }
    intros y.
    etrans; [apply (bind_swap ZeroDivisionError); apply only_raises_py_div|].
    apply bind_ext. intros i1. apply bind_ext. intros i2.
    unfold ret. do 4 f_equal. apply Qcplus_comm.
  - rewrite !token_scores_shared, !bind_assoc by done.
    apply bind_cong; [by rewrite !func_chi_square, chi_square_swap|]. intros s.
    rewrite !bind_ret_l. simpl.
    etrans; [apply (bind_swap ZeroDivisionError); apply only_raises_py_div|].
    apply bind_ext. intros i1. apply bind_ext. intros i2.
    unfold ret. do 4 f_equal. apply Qcplus_comm.
Qed.

Lemma func_returns log2 measure a b c d n1 n2 :
  (n1 + n2 ≠ 0)%Z → ∃ s, func log2 measure a b c d n1 n2 = ([], Ok s).
Proof.
  intros Hn. unfold func. destruct (decide (measure = "mutual_information"%string)).
  - unfold mutual_information, py_div. rewrite decide_False by done.
    eexists. reflexivity.
  - eexists. reflexivity.
Qed.

(** The denominator of [chi_square] is a product of four whole numbers;
    the exchange of the groups exchanges its last two factors. With the
    groups' sizes bounded by [max_exact_users] the product is at most 2^53,
    and so is every partial product, the factors being at least 1. *)
Lemma chi_denom_exact n1 n2 (x : Z * Z * Z * Z) :
  (0 ≤ n1)%Z → (0 ≤ n2)%Z → (n1 + n2 ≤ max_exact_users)%Z →
  (1 ≤ x.1.1.1 ≤ n1 + 1)%Z → (1 ≤ x.1.1.2 ≤ n2 + 1)%Z →
  x.1.2 = (n1 - x.1.1.1 + 2)%Z → x.2 = (n2 - x.1.1.2 + 2)%Z →
  float_exact (chi_denom n1 n2 x).
Proof.
  destruct x as [[[a b] c] d]. simpl. intros Hn1 Hn2 HN Ha Hb -> ->.
  unfold float_exact, max_exact_users in *.
  assert (0 < (a + b) * (n1 + n2 - (a + b) + 4) ≤ 9502 * 9502)%Z as H1 by nia.
  assert (0 < (n1 + 2) * (n2 + 2) ≤ 9502 * 9502)%Z as H2 by nia.
  replace ((a + b) * (n1 + n2 - (a + b) + 4) * (a + (n1 - a + 2)) * (b + (n2 - b + 2)))%Z
    with ((a + b) * (n1 + n2 - (a + b) + 4) * ((n1 + 2) * (n2 + 2)))%Z by ring.
  rewrite Z.abs_eq by nia.
  transitivity (9502 * 9502 * (9502 * 9502))%Z.
  - apply Z.mul_le_mono_nonneg; lia.
  - vm_compute. discriminate.
Qed.

Lemma chi_denom_exact_zip4 n1 n2 (t1 t2 : list Z) :
  (0 ≤ n1)%Z → (0 ≤ n2)%Z → (n1 + n2 ≤ max_exact_users)%Z →
  Forall (λ t, 1 ≤ t ≤ n1 + 1)%Z t1 → Forall (λ t, 1 ≤ t ≤ n2 + 1)%Z t2 →
  Forall (λ x, float_exact (chi_denom n1 n2 x))
         (zip4 t1 t2 (complement_counts n1 t1) (complement_counts n2 t2)).
Proof.
  intros Hn1 Hn2 HN H1 H2. apply Forall_lookup. intros j x Hx.
  apply zip4_lookup in Hx as (Ha & Hb & Hc & Hd).
  rewrite complement_counts_lookup in Hc, Hd. rewrite Ha in Hc. rewrite Hb in Hd.
  injection Hc as Hc. injection Hd as Hd.
  apply chi_denom_exact; try done.
  - eapply Forall_lookup_1 in H1; eauto.
  - eapply Forall_lookup_1 in H2; eauto.
Qed.

(** C7, as the code has it. Take two non-empty groups over one vocabulary
    with at most [max_exact_users] documents together.
    - For chi_square and either value of [leaveout], what
      [calculate_polarization] prints and returns does not change when the
      two matrices are exchanged, and with leave-out the score vector of a
      document is the same whether its group is passed first or second.
      The exchange reorders the last two factors of the denominator of
      [chi_square] and the two operands of the final addition; the
      denominators, without and with leave-out, are whole numbers of at
      most 2^53, which a float64 multiplies without rounding in either
      order.
    - Without leave-out one score vector serves both groups, for
      mutual_information and for chi_square.
    - For mutual_information the exchange leaves the four values passed to
      [np.log2] for a token as they are and moves the pair of group 2
      before the pair of group 1: line 665 adds the same four terms in
      another order, and no equality of the floating-point results is
      stated for this measure. *)
Theorem calculate_polarization_symmetric log2 A B leaveout :
  wf_matrix A → wf_matrix B → ncols A = ncols B →
  0 < nrows A → 0 < nrows B →
  (Z.of_nat (nrows A) + Z.of_nat (nrows B) ≤ max_exact_users)%Z →
  let dem_no := Z.of_nat (nrows A) in
  let rep_no := Z.of_nat (nrows B) in
  let dem_t := get_token_user_counts A in
  let rep_t := get_token_user_counts B in
  let dem_not_t := complement_counts dem_no dem_t in
  let rep_not_t := complement_counts rep_no rep_t in
  calculate_polarization log2 A B "chi_square" leaveout
  = calculate_polarization log2 B A "chi_square" leaveout
  ∧ (∀ i, i < nrows A →
          leaveout_scores_dem log2 A B "chi_square" i
          = leaveout_scores_rep log2 B A "chi_square" i)
  ∧ (∀ i, i < nrows B →
          leaveout_scores_rep log2 A B "chi_square" i
          = leaveout_scores_dem log2 B A "chi_square" i)
  ∧ Forall (λ x, float_exact (chi_denom dem_no rep_no x))
           (zip4 dem_t rep_t dem_not_t rep_not_t)
  ∧ (∀ i, i < nrows A →
          let dem_leaveout_t := leaveout_token_user_counts dem_t A i in
          Forall (λ x, float_exact (chi_denom (dem_no - 1) rep_no x))
                 (zip4 dem_leaveout_t rep_t
                       (complement_counts (dem_no - 1) dem_leaveout_t) rep_not_t))
  ∧ (∀ i, i < nrows B →
          let rep_leaveout_t := leaveout_token_user_counts rep_t B i in
          Forall (λ x, float_exact (chi_denom dem_no (rep_no - 1) x))
                 (zip4 dem_t rep_leaveout_t dem_not_t
                       (complement_counts (rep_no - 1) rep_leaveout_t)))
  ∧ (∀ measure,
       measure = "mutual_information"%string ∨ measure = "chi_square"%string →
       ∃ s, token_scores log2 A B measure = ([], Ok (s, s)))
  ∧ (∀ x, mi_log_arguments rep_no dem_no (swap_groups x)
          = drop 2 (mi_log_arguments dem_no rep_no x)
            ++ take 2 (mi_log_arguments dem_no rep_no x)).
Proof.
  intros _ _ _ HnA HnB Hmax dem_no rep_no dem_t rep_t dem_not_t rep_not_t.
  pose proof (get_token_user_counts_bounds A) as Hdem.
  pose proof (get_token_user_counts_bounds B) as Hrep.
  split; [apply calculate_polarization_swap|].
  split; [intros i _; apply leaveout_scores_swap|].
  split; [intros i _; symmetry; apply leaveout_scores_swap|].
  split; [apply chi_denom_exact_zip4; subst dem_no rep_no; try done; lia|].
  split.
  { intros i Hi. cbv zeta.
    apply chi_denom_exact_zip4; subst dem_no rep_no; try done; try lia.
    by apply leaveout_counts_bounds. }
  split.
  { intros i Hi. cbv zeta.
    apply chi_denom_exact_zip4; subst dem_no rep_no; try done; try lia.
    by apply leaveout_counts_bounds. }
  split; [|intros x; apply mi_log_arguments_swap].
  intros measure Hm. destruct (symmetric_measure_valid measure Hm) as [Hpost _].
  rewrite token_scores_shared by done.
  destruct (func_returns log2 measure dem_t rep_t dem_not_t rep_not_t dem_no rep_no)
    as [s Hs]; [subst dem_no rep_no; lia|].
  exists s. subst dem_no rep_no dem_t rep_t dem_not_t rep_not_t.
  rewrite Hs. reflexivity.
Qed.

(** C7 as stated fails for [leaveout=True]: on [users_ab] and [users_ba]
    with chi_square the vector used for the first document of group 1 is
    (1/12, 1/40) and the one used for the first document of group 2 is
    (1/40, 1/12). *)
Lemma leaveout_scores_not_shared :
  ¬ (∀ log2 dem_counts rep_counts measure i j,
       measure = "mutual_information"%string ∨ measure = "chi_square"%string →
       no_zero_rows dem_counts → no_zero_rows rep_counts →
       i < nrows dem_counts → j < nrows rep_counts →
       leaveout_scores_dem log2 dem_counts rep_counts measure i
       = leaveout_scores_rep log2 dem_counts rep_counts measure j).
Proof.
  intros H.
  assert (no_zero_rows users_ab) as Hab
    by (repeat constructor; discriminate).
  assert (no_zero_rows users_ba) as Hba.
  { constructor; [apply Exists_cons_tl|]; repeat constructor; discriminate. }
  assert (0 < nrows users_ab) as Hi by (vm_compute; lia).
  assert (0 < nrows users_ba) as Hj by (vm_compute; lia).
  specialize (H log2_unused users_ab users_ba "chi_square"%string 0 0
                (or_intror eq_refl) Hab Hba Hi Hj).
  apply (f_equal values) in H. vm_compute in H. discriminate.
Qed.

Example leaveout_scores_users_ab :
  values (leaveout_scores_dem log2_unused users_ab users_ba "chi_square" 0)
  = Some [1 # 12; 1 # 40]%Q
  ∧ values (leaveout_scores_dem log2_unused users_ab users_ba "chi_square" 1)
    = Some [1 # 12; 25 # 48]%Q
  ∧ values (leaveout_scores_rep log2_unused users_ab users_ba "chi_square" 0)
    = Some [1 # 40; 1 # 12]%Q
  ∧ values (leaveout_scores_rep log2_unused users_ab users_ba "chi_square" 1)
    = Some [25 # 48; 1 # 12]%Q.
Proof. repeat split; vm_compute; reflexivity. Qed.

(** ** The theorems at concrete inputs *)

Lemma get_news_token_counts_spec_witness :
  corpus_in_vocab repeated_id_corpus ["a"; "b"]%string
  ∧ counts_fit_int64 repeated_id_corpus
  ∧ ∃ M, get_news_token_counts repeated_id_corpus ["a"; "b"]%string = Ok M
         ∧ shape M = (2, 2)
         ∧ matrix_sum M = corpus_total repeated_id_corpus
         ∧ (∀ i doc j, repeated_id_corpus !! i = Some doc →
                       entry M i j = doc_count doc j)
         ∧ (Z.abs (matrix_sum M) < 2 ^ 63)%Z
         ∧ (∀ i j, Z.abs (entry M i j) < 2 ^ 63)%Z.
Proof.
  assert (corpus_in_vocab repeated_id_corpus ["a"; "b"]%string) as Hin.
  { repeat (apply Forall_cons; split); try apply Forall_nil; simpl; lia. }
  assert (counts_fit_int64 repeated_id_corpus) as Hfit by (vm_compute; reflexivity).
  refine (conj Hin (conj Hfit _)).
  exact (get_news_token_counts_spec repeated_id_corpus ["a"; "b"]%string Hin Hfit).
Defined.

Lemma leaveout_token_user_counts_correct_witness :
  1 < nrows users_ab
  ∧ leaveout_token_user_counts (get_token_user_counts users_ab) users_ab 1
    = get_token_user_counts (remove_row users_ab 1).
Proof.
  assert (1 < nrows users_ab) as Hi by (vm_compute; lia).
  split; [exact Hi|].
  exact (leaveout_token_user_counts_correct users_ab 1 Hi).
Defined.

Lemma calculate_polarization_symmetric_witness :
  wf_matrix users_ab ∧ wf_matrix users_ba ∧ ncols users_ab = ncols users_ba
  ∧ 0 < nrows users_ab ∧ 0 < nrows users_ba
  ∧ (Z.of_nat (nrows users_ab) + Z.of_nat (nrows users_ba) ≤ max_exact_users)%Z
  ∧ let dem_no := Z.of_nat (nrows users_ab) in
    let rep_no := Z.of_nat (nrows users_ba) in
    let dem_t := get_token_user_counts users_ab in
    let rep_t := get_token_user_counts users_ba in
    let dem_not_t := complement_counts dem_no dem_t in
    let rep_not_t := complement_counts rep_no rep_t in
    calculate_polarization log2_unused users_ab users_ba "chi_square" true
    = calculate_polarization log2_unused users_ba users_ab "chi_square" true
    ∧ (∀ i, i < nrows users_ab →
            leaveout_scores_dem log2_unused users_ab users_ba "chi_square" i
            = leaveout_scores_rep log2_unused users_ba users_ab "chi_square" i)
    ∧ (∀ i, i < nrows users_ba →
            leaveout_scores_rep log2_unused users_ab users_ba "chi_square" i
            = leaveout_scores_dem log2_unused users_ba users_ab "chi_square" i)
    ∧ Forall (λ x, float_exact (chi_denom dem_no rep_no x))
             (zip4 dem_t rep_t dem_not_t rep_not_t)
    ∧ (∀ i, i < nrows users_ab →
            let dem_leaveout_t := leaveout_token_user_counts dem_t users_ab i in
            Forall (λ x, float_exact (chi_denom (dem_no - 1) rep_no x))
                   (zip4 dem_leaveout_t rep_t
                         (complement_counts (dem_no - 1) dem_leaveout_t) rep_not_t))
    ∧ (∀ i, i < nrows users_ba →
            let rep_leaveout_t := leaveout_token_user_counts rep_t users_ba i in
            Forall (λ x, float_exact (chi_denom dem_no (rep_no - 1) x))
                   (zip4 dem_t rep_leaveout_t dem_not_t
                         (complement_counts (rep_no - 1) rep_leaveout_t)))
    ∧ (∀ measure,
         measure = "mutual_information"%string ∨ measure = "chi_square"%string →
         ∃ s, token_scores log2_unused users_ab users_ba measure = ([], Ok (s, s)))
    ∧ (∀ x, mi_log_arguments rep_no dem_no (swap_groups x)
            = drop 2 (mi_log_arguments dem_no rep_no x)
              ++ take 2 (mi_log_arguments dem_no rep_no x)).
Proof.
  assert (wf_matrix users_ab) as H1 by (repeat constructor).
  assert (wf_matrix users_ba) as H2 by (repeat constructor).
  assert (ncols users_ab = ncols users_ba) as H3 by reflexivity.
  assert (0 < nrows users_ab) as H4 by (vm_compute; lia).
  assert (0 < nrows users_ba) as H5 by (vm_compute; lia).
  assert (Z.of_nat (nrows users_ab) + Z.of_nat (nrows users_ba) ≤ max_exact_users)%Z
    as H6 by (vm_compute; discriminate).
  refine (conj H1 (conj H2 (conj H3 (conj H4 (conj H5 (conj H6 _)))))).
  exact (calculate_polarization_symmetric log2_unused users_ab users_ba true
           H1 H2 H3 H4 H5 H6).
Defined.

Lemma calculate_polarization_invalid_measure_witness :
  counts_nonneg users_ab ∧ counts_nonneg users_ba
  ∧ no_zero_rows users_ab ∧ no_zero_rows users_ba
  ∧ ("cosine"%string ∉ valid_measures)
  ∧ calculate_polarization log2_unused users_ab users_ba "cosine" true
    = ([Text "invalid method"], Ok None).
Proof.
  assert (counts_nonneg users_ab) as Hd.
  { repeat (apply Forall_cons; split); try apply Forall_nil; lia. }
  assert (counts_nonneg users_ba) as Hr.
  { repeat (apply Forall_cons; split); try apply Forall_nil; lia. }
  assert (no_zero_rows users_ab) as Hdz
    by (repeat constructor; discriminate).
  assert (no_zero_rows users_ba) as Hrz.
  { constructor; [apply Exists_cons_tl|]; repeat constructor; discriminate. }
  assert ("cosine"%string ∉ valid_measures) as Hm.
  { unfold valid_measures. rewrite !not_elem_of_cons. repeat split; try discriminate.
    apply not_elem_of_nil. }
  refine (conj Hd (conj Hr (conj Hdz (conj Hrz (conj Hm _))))).
  exact (calculate_polarization_invalid_measure log2_unused users_ab users_ba
           "cosine" true Hd Hr Hdz Hrz Hm).
Defined.


Lemma get_leaveout_score_deterministic_witness :
  RandomSpec counting_random
  ∧ get_leaveout_score log2_unused counting_random environment0
                       rare_word_corpus1 rare_word_corpus2 abc "chi_square" true
                       (Q2Qc (1 # 2)) 1 10
    = get_leaveout_score log2_unused counting_random environment1
                         rare_word_corpus1 rare_word_corpus2 abc "chi_square" true
                         (Q2Qc (1 # 2)) 1 10.
Proof.
  split; [exact counting_random_spec|].
  exact (get_leaveout_score_deterministic log2_unused counting_random
           environment0 environment1 rare_word_corpus1 rare_word_corpus2 abc
           "chi_square" true (Q2Qc (1 # 2)) 1 10 counting_random_spec).
Defined.


(** * Further properties of the code *)

(** ** The builder *)

Lemma add_entry_nonneg R e :
  Forall (Forall (λ x, 0 ≤ x)%Z) R → (0 ≤ e.2)%Z →
  Forall (Forall (λ x, 0 ≤ x)%Z) (add_entry R e).
Proof.
  intros HR He. unfold add_entry. apply Forall_alter; [done|].
  intros r _ Hr. apply Forall_alter; [done|]. intros x _ Hx. lia.
Qed.

Lemma foldl_add_entry_nonneg es R :
  Forall (Forall (λ x, 0 ≤ x)%Z) R → Forall (λ e : nat * Z * Z, 0 ≤ e.2)%Z es →
  Forall (Forall (λ x, 0 ≤ x)%Z) (foldl add_entry R es).
Proof.
  intros HR Hes. revert R HR. induction Hes as [|e es He _ IH]; intros R HR; csimpl.
  - done.
  - apply IH. by apply add_entry_nonneg.
Qed.

Lemma coo_from_nonneg k corpus :
  corpus_counts_nonneg corpus → Forall (λ e : nat * Z * Z, 0 ≤ e.2)%Z (coo_from k corpus).
Proof.
  intros H. revert k. induction H as [|doc rest Hdoc _ IH]; intros k; csimpl.
  - constructor.
  - apply Forall_app. split; [|apply IH].
    rewrite Forall_fmap. eapply Forall_impl; [exact Hdoc|]. by intros [j c].
Qed.

Lemma get_news_token_counts_nonneg corpus idx2word M :
  corpus_counts_nonneg corpus →
  get_news_token_counts corpus idx2word = Ok M → counts_nonneg M.
Proof.
  intros Hnn. unfold get_news_token_counts, csr_from_coo.
  destruct (decide _); [|done]. intros [= <-]. unfold counts_nonneg. simpl.
  apply foldl_add_entry_nonneg; [|by apply coo_from_nonneg].
  apply Forall_replicate. apply Forall_replicate. lia.
Qed.

(** X1. For a corpus whose counts fit the 64-bit entries and whose token
    ids fit the 32-bit indices of the matrix, [get_news_token_counts]
    returns a matrix exactly when every token id of the corpus is an id of
    the vocabulary; otherwise the matrix constructor raises [ValueError]. *)
Theorem get_news_token_counts_succeeds_iff corpus idx2word :
  counts_fit_int64 corpus → ids_fit_int32 corpus →
  ((∃ M, get_news_token_counts corpus idx2word = Ok M)
   ↔ corpus_in_vocab corpus idx2word)
  ∧ (¬ corpus_in_vocab corpus idx2word →
     get_news_token_counts corpus idx2word = Raise ValueError).
Proof.
  intros _ _. split; [split|].
  - intros [M HM]. destruct (decide (corpus_in_vocab corpus idx2word)) as [|Hout];
      [done|]. by rewrite get_news_token_counts_out_of_vocab in HM.
  - intros Hin. destruct (get_news_token_counts_ok _ _ Hin) as (M & HM & _).
    by exists M.
  - apply get_news_token_counts_out_of_vocab.
Qed.

(** X2. On a corpus over the vocabulary whose counts fit the 64-bit entries,
    the matrix built is well formed (every row has one entry per word of
    the vocabulary), a document without tokens gives an all-zero row, and
    non-negative counts give non-negative entries. *)
Theorem get_news_token_counts_shape_and_sign corpus idx2word :
  corpus_in_vocab corpus idx2word →
  counts_fit_int64 corpus →
  ∃ M, get_news_token_counts corpus idx2word = Ok M
       ∧ wf_matrix M
       ∧ (∀ i, corpus !! i = Some [] →
               get_row M i = replicate (length idx2word) 0%Z)
       ∧ (corpus_counts_nonneg corpus → counts_nonneg M).
Proof.
  intros Hin _.
  destruct (get_news_token_counts_ok _ _ Hin) as (M & HM & Hwf & Hn & HV & _ & Hentry).
  exists M. repeat split; try done.
  - intros i Hi.
    assert (i < nrows M) as Hlt by (rewrite Hn; by eapply lookup_lt_Some).
    destruct (lookup_lt_is_Some_2 (rows M) i Hlt) as [r Hr].
    unfold get_row. rewrite Hr. simpl.
    assert (length r = length idx2word) as Hlen.
    { rewrite <- HV. eapply Forall_lookup_1 in Hwf; eauto. }
    apply list_eq. intros j. destruct (decide (j < length idx2word)) as [Hj|Hj].
    + rewrite lookup_replicate_2 by done.
      destruct (lookup_lt_is_Some_2 r j ltac:(lia)) as [x Hx]. rewrite Hx. f_equal.
      specialize (Hentry i j). unfold entry, cell in Hentry.
      rewrite Hr in Hentry. simpl in Hentry. rewrite Hx in Hentry. simpl in Hentry.
      rewrite Hentry, matching_coo_from, decide_True by lia.
      rewrite Nat.sub_0_r. unfold document in *. by rewrite Hi.
    + rewrite (proj1 (lookup_replicate_None _ _ _)) by lia.
      apply lookup_ge_None. lia.
  - intros Hnn. by eapply get_news_token_counts_nonneg.
Qed.

(** ** Presence counts *)

(** X3. [get_token_user_counts] returns one number per column, and the
    number for column [j] is 1 plus the number of rows (documents) with a
    nonzero entry in column [j]: it counts documents, not occurrences. *)
Theorem get_token_user_counts_counts_documents (party_counts : csr_matrix) :
  length (get_token_user_counts party_counts) = ncols party_counts
  ∧ ∀ j, j < ncols party_counts →
         get_token_user_counts party_counts !! j
         = Some (1 + Z.of_nat (length (filter (λ r, default 0%Z (r !! j) ≠ 0%Z)
                                              (rows party_counts))))%Z.
Proof.
  split; [apply get_token_user_counts_length|].
  intros j Hj. rewrite get_token_user_counts_lookup. by rewrite decide_True.
Qed.

(** ** Distributions *)

Lemma Qc_of_Z_nonzero n : n ≠ 0%Z → Qc_of_Z n ≠ 0%Qc.
Proof. intros Hn H. apply Hn. apply Z2Qc_inj. by rewrite Z2Qc_inj_0. Qed.

Lemma Zsum_lookups (r : list Z) :
  Zsum ((λ j, default 0%Z (r !! j)) <$> seq 0 (length r)) = Zsum r.
Proof.
  induction r as [|x r IH]; csimpl; [done|].
  rewrite <- IH. f_equal. rewrite <- fmap_S_seq, <- list_fmap_compose. done.
Qed.

Lemma Zsum_pointwise_add {A} (f g : A → Z) (l : list A) :
  Zsum ((λ a, f a + g a)%Z <$> l) = (Zsum (f <$> l) + Zsum (g <$> l))%Z.
Proof. induction l as [|a l IH]; csimpl; [done | rewrite IH; lia]. Qed.

Lemma Zsum_zeros {A} (l : list A) : Zsum ((λ _, 0%Z) <$> l) = 0%Z.
Proof. induction l as [|a l IH]; csimpl; [done | by rewrite IH]. Qed.

(** The column sums and the row sums of a matrix add up to the same. *)
Lemma Zsum_sum_axis0 M : wf_matrix M → Zsum (sum_axis0 M) = matrix_sum M.
Proof.
  destruct M as [V R]. unfold wf_matrix, sum_axis0, matrix_sum. simpl.
  induction 1 as [|r R Hr _ IH]; csimpl.
  - apply Zsum_zeros.
  - rewrite (Zsum_pointwise_add (λ j, default 0%Z (r !! j))), IH.
    f_equal. rewrite <- Hr. apply Zsum_lookups.
Qed.

Lemma sum_axis0_length M : length (sum_axis0 M) = ncols M.
Proof. unfold sum_axis0. by rewrite length_fmap, length_seq. Qed.

Lemma sum_axis0_nonneg M :
  counts_nonneg M → Forall (λ x, 0 ≤ x)%Z (sum_axis0 M).
Proof.
  intros Hnn. unfold sum_axis0. apply Forall_fmap, Forall_forall. intros j _. simpl.
  apply Zsum_nonneg. apply Forall_fmap. eapply Forall_impl; [exact Hnn|].
  intros r Hr. simpl. destruct (r !! j) as [x|] eqn:Hx; simpl; [|lia].
  eapply Forall_lookup_1 in Hr; eauto.
Qed.

Lemma Qc_one_minus_range (x : Qc) : (0 ≤ x ≤ 1 → 0 ≤ 1 - x ≤ 1)%Qc.
Proof.
  intros [H0 H1]. split.
  - apply Qcle_minus_iff in H1. by replace (1 - x)%Qc with (1 + - x)%Qc by ring.
  - apply Qcle_minus_iff. by replace (1 + - (1 - x))%Qc with x by ring.
Qed.

Lemma Qc_share_range (d r : Qc) :
  (0 ≤ d → 0 ≤ r → d + r ≠ 0 → 0 ≤ r / (d + r) ≤ 1)%Qc.
Proof.
  intros Hd Hr Hne.
  assert (0 < d + r)%Qc as Hpos.
  { destruct (Qcle_lt_or_eq _ _ (Qcplus_nonneg_nonneg d r Hd Hr)) as [?|Heq];
      [done|]. by destruct Hne. }
  split.
  - apply Qcmult_nonneg_nonneg; [done|]. apply Qclt_le_weak. by apply Qcinv_pos.
  - apply (Qcmult_le_mono_pos_r _ _ (d + r)%Qc Hpos).
    replace (r / (d + r) * (d + r))%Qc with r by (field; done).
    rewrite Qcmult_1_l. rewrite <- (Qcplus_0_l r) at 1.
    by apply Qcplus_le_mono_r.
Qed.

Lemma get_rho_range (dem_q rep_q : list Qc) :
  Forall (λ q, 0 ≤ q)%Qc dem_q → Forall (λ q, 0 ≤ q)%Qc rep_q →
  Forall2 (λ d r, d + r ≠ 0)%Qc dem_q rep_q →
  Forall (λ s, 0 ≤ s ≤ 1)%Qc (get_rho dem_q rep_q).
Proof.
  unfold get_rho. intros Hd Hr Hmass. revert Hd Hr.
  induction Hmass as [|d r dem_q rep_q Hdr _ IH]; intros Hd Hr; csimpl; [done|].
  apply Forall_cons in Hd as [Hd0 Hd]. apply Forall_cons in Hr as [Hr0 Hr].
  constructor; [by apply Qc_share_range | by apply IH].
Qed.

Lemma Zsum_elem_le (l : list Z) x :
  Forall (λ y, 0 ≤ y)%Z l → x ∈ l → (x ≤ Zsum l)%Z.
Proof.
  induction 1 as [|y l Hy Hl IH]; intros Hx; [by apply elem_of_nil in Hx|].
  pose proof (Zsum_nonneg l Hl). csimpl.
  apply elem_of_cons in Hx as [->|Hx]; [lia|]. specialize (IH Hx). lia.
Qed.

Lemma Qc_of_Z_nonneg n : (0 ≤ n)%Z → (0 ≤ Qc_of_Z n)%Qc.
Proof. intros Hn. apply (proj1 (Z2Qc_inj_le 0 n)) in Hn. by rewrite Z2Qc_inj_0 in Hn. Qed.

(** The quotient of a part by a whole that is not zero. *)
Lemma Qc_part_range (x t : Z) :
  (0 ≤ x ≤ t)%Z → t ≠ 0%Z → (0 ≤ Qc_of_Z x / Qc_of_Z t ≤ 1)%Qc.
Proof.
  intros [Hx Hxt] Ht.
  replace t with ((t - x) + x)%Z in * by lia. rewrite Z2Qc_inj_add.
  apply Qc_share_range.
  - apply Qc_of_Z_nonneg. lia.
  - by apply Qc_of_Z_nonneg.
  - rewrite <- Z2Qc_inj_add. by apply Qc_of_Z_nonzero.
Qed.

(** X5. For a well-formed matrix of non-negative counts that do not all
    vanish and whose sums fit in 64 bits, [get_party_q] without an excluded
    document returns one value per column, and every value lies between 0
    and 1. *)
Theorem get_party_q_values_range (party_counts : csr_matrix) :
  wf_matrix party_counts → counts_nonneg party_counts →
  entries_fit_int64 party_counts → matrix_sum party_counts ≠ 0%Z →
  length (get_party_q party_counts None) = ncols party_counts
  ∧ Forall (λ q, 0 ≤ q ≤ 1)%Qc (get_party_q party_counts None).
Proof.
  intros Hwf Hnn _ Hs. unfold get_party_q. simpl.
  rewrite <- Zsum_sum_axis0 in Hs by done.
  split; [by rewrite length_fmap, sum_axis0_length|].
  pose proof (sum_axis0_nonneg _ Hnn) as Hcol.
  apply Forall_fmap, Forall_forall. intros x Hx. simpl.
  apply Qc_part_range; [|done]. split.
  - by eapply Forall_forall in Hcol.
  - by apply Zsum_elem_le.
Qed.

(** ** The posterior scores *)

(** X6. For two lists of non-negative values (the two groups'
    distributions) in which every token has mass on one side, every
    posterior score of group 2, [rho], and every posterior score of group 1,
    [1 - rho], lies between 0 and 1. *)
Theorem posterior_scores_in_unit_interval (dem_q rep_q : list Qc) :
  Forall (λ q, 0 ≤ q)%Qc dem_q → Forall (λ q, 0 ≤ q)%Qc rep_q →
  Forall2 (λ d r, d + r ≠ 0)%Qc dem_q rep_q →
  Forall (λ s, 0 ≤ s ≤ 1)%Qc (get_rho dem_q rep_q)
  ∧ Forall (λ s, 0 ≤ s ≤ 1)%Qc ((λ x, 1 - x)%Qc <$> get_rho dem_q rep_q).
Proof.
  intros Hd Hr Hmass. pose proof (get_rho_range _ _ Hd Hr Hmass) as Hrho.
  split; [done|]. apply Forall_fmap. eapply Forall_impl; [exact Hrho|].
  intros s Hs. by apply Qc_one_minus_range.
Qed.

(** ** What [calculate_polarization] raises and returns *)

Lemma all_rows_nonzero_iff (party_user_total : list Z) :
  all_rows_nonzero party_user_total = true
  ↔ Forall (λ x, x ≠ 0%Z) party_user_total.
Proof.
  split; [|apply all_rows_nonzero_true].
  unfold all_rows_nonzero. intros H. apply bool_decide_eq_true in H.
  apply Forall_lookup. intros i x Hx Hzero.
  assert (i ∈ (list_to_set (seq 0 (length party_user_total)) : gset nat)) as Hi.
  { rewrite elem_of_list_to_set, elem_of_seq. apply lookup_lt_Some in Hx. lia. }
  rewrite <- H in Hi. rewrite elem_of_list_to_set, list_elem_of_filter in Hi.
  destruct Hi as [Hnz _]. rewrite Hx in Hnz. simpl in Hnz. done.
Qed.

Lemma row_sums_nonzero_iff M :
  all_rows_nonzero (sum_axis1 M) = true ↔ Forall (λ r, Zsum r ≠ 0%Z) (rows M).
Proof. rewrite all_rows_nonzero_iff. unfold sum_axis1. by rewrite Forall_fmap. Qed.

Lemma only_raises_token_scores log2 A B measure :
  only_raises ZeroDivisionError (token_scores log2 A B measure).
Proof.
  unfold token_scores. destruct (decide (measure = "posterior"%string)).
  - apply only_raises_ret.
  - apply only_raises_bind; [apply only_raises_func|].
    intros s. apply only_raises_ret.
Qed.

(** Past the assertions and the test of the measure nothing is printed and
    only a division by a group size of zero can raise. *)
Lemma only_raises_estimate log2 A B measure leaveout :
  only_raises ZeroDivisionError
    (if negb leaveout then
       let! scores := token_scores log2 A B measure in
       let! dem_inv := py_div 1 (Z.of_nat (nrows A)) in
       let! rep_inv := py_div 1 (Z.of_nat (nrows B)) in
       ret (Some (1 / 2 * (dem_inv * Qcsum ((λ row, dot row scores.1) <$> user_distr A)
                           + rep_inv * Qcsum ((λ row, dot row scores.2) <$> user_distr B)))%Qc)
     else
       let! dem_addup :=
         for_each (λ i dem_addup,
                     let! token_scores_dem := leaveout_scores_dem log2 A B measure i in
                     ret (dem_addup + dot (default [] (user_distr A !! i)) token_scores_dem)%Qc)
                  (seq 0 (nrows A)) 0%Qc in
       let! rep_addup :=
         for_each (λ i rep_addup,
                     let! token_scores_rep := leaveout_scores_rep log2 A B measure i in
                     ret (rep_addup + dot (default [] (user_distr B !! i)) token_scores_rep)%Qc)
                  (seq 0 (nrows B)) 0%Qc in
       let! rep_inv := py_div 1 (Z.of_nat (nrows B)) in
       let! dem_inv := py_div 1 (Z.of_nat (nrows A)) in
       ret (Some (1 / 2 * (dem_inv * dem_addup + rep_inv * rep_addup))%Qc)).
Proof.
  destruct leaveout; simpl negb; cbv iota.
  - apply only_raises_bind.
    { apply only_raises_for_each. intros i a. apply only_raises_bind;
        [apply only_raises_leaveout_scores_dem | intros; apply only_raises_ret]. }
    intros x. apply only_raises_bind.
    { apply only_raises_for_each. intros i a. apply only_raises_bind;
        [apply only_raises_leaveout_scores_rep | intros; apply only_raises_ret]. }
    intros y. apply only_raises_bind; [apply only_raises_py_div|]. intros i1.
    apply only_raises_bind; [apply only_raises_py_div|]. intros i2.
    apply only_raises_ret.
  - apply only_raises_bind; [apply only_raises_token_scores|]. intros s.
    apply only_raises_bind; [apply only_raises_py_div|]. intros i1.
    apply only_raises_bind; [apply only_raises_py_div|]. intros i2.
    apply only_raises_ret.
Qed.

(** With both assertions passing, [calculate_polarization] is the test of
    the measure followed by the estimate. *)
Lemma calculate_polarization_past_asserts log2 A B measure leaveout :
  Forall (λ r, Zsum r ≠ 0%Z) (rows A) → Forall (λ r, Zsum r ≠ 0%Z) (rows B) →
  (calculate_polarization log2 A B measure leaveout).2 ≠ Raise AssertionError
  ∧ (measure ∈ valid_measures →
     only_raises ZeroDivisionError (calculate_polarization log2 A B measure leaveout)).
Proof.
  intros HA HB. apply row_sums_nonzero_iff in HA. apply row_sums_nonzero_iff in HB.
  unfold calculate_polarization. rewrite HA, HB. unfold assert.
  rewrite !bind_ret_l. case_bool_decide as Hm.
  - split; [done|]. intros Hv. done.
  - pose proof (only_raises_estimate log2 A B measure leaveout) as [Hout Hexn].
    split.
    + intros Hraise. by specialize (Hexn _ Hraise).
    + intros _. by split.
Qed.

(** X8. For two groups with at least one document each,
    [calculate_polarization] fails its assertion exactly when some row of
    one of the two matrices sums to zero, and then before it looks at the
    measure and without printing: an unknown measure is only reported for
    matrices that pass the assertions. *)
Theorem calculate_polarization_assertion log2 dem_counts rep_counts measure leaveout :
  0 < nrows dem_counts → 0 < nrows rep_counts →
  ((calculate_polarization log2 dem_counts rep_counts measure leaveout).2
   = Raise AssertionError
   ↔ Exists (λ r, Zsum r = 0%Z) (rows dem_counts)
     ∨ Exists (λ r, Zsum r = 0%Z) (rows rep_counts))
  ∧ (Exists (λ r, Zsum r = 0%Z) (rows dem_counts)
     ∨ Exists (λ r, Zsum r = 0%Z) (rows rep_counts) →
     calculate_polarization log2 dem_counts rep_counts measure leaveout
     = ([], Raise AssertionError)).
Proof.
  intros _ _.
  assert (Exists (λ r, Zsum r = 0%Z) (rows dem_counts)
          ∨ Exists (λ r, Zsum r = 0%Z) (rows rep_counts) →
          calculate_polarization log2 dem_counts rep_counts measure leaveout
          = ([], Raise AssertionError)) as Hfail.
  { intros Hex. unfold calculate_polarization.
    destruct (all_rows_nonzero (sum_axis1 dem_counts)) eqn:Hd.
    - destruct (all_rows_nonzero (sum_axis1 rep_counts)) eqn:Hr; [|done].
      apply row_sums_nonzero_iff in Hd, Hr. exfalso.
      destruct Hex as [Hex|Hex]; apply Exists_exists in Hex as (r & Hin & Hz).
      + rewrite Forall_forall in Hd. by apply (Hd r).
      + rewrite Forall_forall in Hr. by apply (Hr r).
    - done. }
  split; [|exact Hfail]. split.
  - intros Hraise.
    destruct (decide (Forall (λ r, Zsum r ≠ 0%Z) (rows dem_counts))) as [HA|HA].
    + destruct (decide (Forall (λ r, Zsum r ≠ 0%Z) (rows rep_counts))) as [HB|HB].
      * by destruct (calculate_polarization_past_asserts
                       log2 dem_counts rep_counts measure leaveout HA HB) as [Hno _].
      * right. apply not_Forall_Exists in HB; [|apply _].
        eapply Exists_impl; [exact HB|]. intros r Hr. simpl in Hr.
        destruct (decide (Zsum r = 0%Z)); [done|]. by destruct Hr.
    + left. apply not_Forall_Exists in HA; [|apply _].
      eapply Exists_impl; [exact HA|]. intros r Hr. simpl in Hr.
      destruct (decide (Zsum r = 0%Z)); [done|]. by destruct Hr.
  - intros Hex. by rewrite Hfail.
Qed.

Lemma for_each_returns {A} (body : nat → A → M A) idx acc :
  (∀ i a, i ∈ idx → ∃ b, body i a = ([], Ok b)) →
  ∃ b, for_each body idx acc = ([], Ok b).
Proof.
  revert acc. induction idx as [|i idx IH]; intros acc Hbody; simpl.
  - by eexists.
  - destruct (Hbody i acc) as [b Hb]; [by left|].
    destruct (IH b) as [c Hc]; [intros j a Hj; apply Hbody; by right|].
    exists c. rewrite Hb. unfold bind. simpl. by rewrite Hc.
Qed.

(** Past the assertions and the measure test, with a document in each
    group, the computation of the model ends in a value; in the program
    that value is a float, inf and nan included. *)
Lemma calculate_polarization_value log2 dem_counts rep_counts measure leaveout :
  measure ∈ valid_measures →
  Forall (λ r, Zsum r ≠ 0%Z) (rows dem_counts) →
  Forall (λ r, Zsum r ≠ 0%Z) (rows rep_counts) →
  0 < nrows dem_counts → 0 < nrows rep_counts →
  ∃ v, calculate_polarization log2 dem_counts rep_counts measure leaveout
       = ([], Ok (Some v)).
Proof.
  intros Hm HA HB HnA HnB.
  apply row_sums_nonzero_iff in HA. apply row_sums_nonzero_iff in HB.
  unfold calculate_polarization. rewrite HA, HB. unfold assert.
  rewrite !bind_ret_l. rewrite bool_decide_eq_false_2 by (intros Hn; by apply Hn).
  assert (py_div 1 (Z.of_nat (nrows dem_counts))
          = ret (Qc_of_Z 1 / Qc_of_Z (Z.of_nat (nrows dem_counts)))%Qc) as HdA.
  { unfold py_div. rewrite decide_False by lia. done. }
  assert (py_div 1 (Z.of_nat (nrows rep_counts))
          = ret (Qc_of_Z 1 / Qc_of_Z (Z.of_nat (nrows rep_counts)))%Qc) as HdB.
  { unfold py_div. rewrite decide_False by lia. done. }
  destruct leaveout; simpl negb; cbv iota.
  - destruct (for_each_returns
                (λ i dem_addup,
                   let! token_scores_dem :=
                     leaveout_scores_dem log2 dem_counts rep_counts measure i in
                   ret (dem_addup
                        + dot (default [] (user_distr dem_counts !! i)) token_scores_dem)%Qc)
                (seq 0 (nrows dem_counts)) 0%Qc) as [x Hx].
    { intros i a _. unfold leaveout_scores_dem.
      destruct (decide (measure = "posterior"%string)).
      - rewrite bind_ret_l. by eexists.
      - edestruct (func_returns log2 measure) as [s Hs]; [|rewrite Hs; by eexists]. lia. }
    destruct (for_each_returns
                (λ i rep_addup,
                   let! token_scores_rep :=
                     leaveout_scores_rep log2 dem_counts rep_counts measure i in
                   ret (rep_addup
                        + dot (default [] (user_distr rep_counts !! i)) token_scores_rep)%Qc)
                (seq 0 (nrows rep_counts)) 0%Qc) as [y Hy].
    { intros i a _. unfold leaveout_scores_rep.
      destruct (decide (measure = "posterior"%string)).
      - rewrite bind_ret_l. by eexists.
      - edestruct (func_returns log2 measure) as [s Hs]; [|rewrite Hs; by eexists]. lia. }
    rewrite Hx, Hy, HdA, HdB. by eexists.
  - assert (∃ s, token_scores log2 dem_counts rep_counts measure = ([], Ok s)) as [s Hs].
    { unfold token_scores. destruct (decide (measure = "posterior"%string)).
      - by eexists.
      - edestruct (func_returns log2 measure) as [s Hs]; [|rewrite Hs; by eexists]. lia. }
    rewrite Hs, HdA, HdB. by eexists.
Qed.

(** X9. For a known measure and two groups over one vocabulary with at
    least one document each, no row summing to zero and sums that fit in 64
    bits, [calculate_polarization] raises no exception, does not return
    [None] and prints nothing, with and without leave-out. (Nothing is said
    about the value: numpy divides by zero without raising.) *)
Theorem calculate_polarization_no_exception log2 dem_counts rep_counts measure leaveout :
  measure ∈ valid_measures →
  wf_matrix dem_counts → wf_matrix rep_counts →
  ncols dem_counts = ncols rep_counts →
  entries_fit_int64 dem_counts → entries_fit_int64 rep_counts →
  Forall (λ r, Zsum r ≠ 0%Z) (rows dem_counts) →
  Forall (λ r, Zsum r ≠ 0%Z) (rows rep_counts) →
  0 < nrows dem_counts → 0 < nrows rep_counts →
  let outcome := calculate_polarization log2 dem_counts rep_counts measure leaveout in
  outcome.1 = [] ∧ (∀ e, outcome.2 ≠ Raise e) ∧ outcome.2 ≠ Ok None.
Proof.
  intros Hm _ _ _ _ _ HA HB HnA HnB outcome.
  destruct (calculate_polarization_value log2 dem_counts rep_counts measure leaveout
              Hm HA HB HnA HnB) as [v Hv].
  subst outcome. rewrite Hv. simpl. by repeat split.
Qed.

(** ** The stages of the pipeline *)

Lemma mask_select_filter {A} (P : A → Prop) `{!∀ x, Decision (P x)}
    (mask : list bool) (l : list A) :
  Forall2 (λ b x, b = true ↔ P x) mask l → mask_select mask l = filter P l.
Proof.
  unfold mask_select. induction 1 as [|b x mask l Hbx _ IH]; csimpl; [done|].
  rewrite IH, filter_cons. destruct b.
  - rewrite decide_True by (by apply Hbx). done.
  - rewrite decide_False; [done|]. intros HP. by apply Hbx in HP.
Qed.

Lemma nonzero_from_nonempty j0 r :
  nonzero_from j0 r ≠ [] ↔ nonzero_row r.
Proof.
  unfold nonzero_row. revert j0. induction r as [|x r IH]; intros j0; csimpl.
  - split; [done|]. intros H. by apply Exists_nil in H.
  - destruct (decide (x = 0%Z)) as [->|Hx].
    + rewrite IH, Exists_cons. split; [tauto|]. by intros [?|?].
    + split; [|done]. intros _. by apply Exists_cons_hd.
Qed.

Lemma elem_of_nonzero_rows i k R :
  i ∈ (nonzero_rows_from k R).*1
  ↔ k ≤ i ∧ ∃ r, R !! (i - k) = Some r ∧ nonzero_row r.
Proof.
  revert k. induction R as [|r R IH]; intros k; csimpl.
  - rewrite elem_of_nil. split; [done|]. by intros (_ & r & ? & _).
  - rewrite fmap_app, elem_of_app, IH, <- list_fmap_compose.
    split.
    + intros [Hin|(Hk & r' & Hr' & Hnz)].
      * apply list_elem_of_fmap in Hin as (j & -> & Hj). simpl.
        split; [done|]. exists r. rewrite Nat.sub_diag. split; [done|].
        apply (nonzero_from_nonempty 0). intros Hnil. rewrite Hnil in Hj.
        by apply elem_of_nil in Hj.
      * split; [lia|]. exists r'. split; [|done].
        replace (i - k) with (S (i - S k)) by lia. done.
    + intros (Hk & r' & Hr' & Hnz). destruct (decide (i = k)) as [->|Hne].
      * left. rewrite Nat.sub_diag in Hr'. injection Hr' as <-.
        apply (nonzero_from_nonempty 0) in Hnz.
        destruct (nonzero_from 0 r) as [|j js] eqn:Hjs; [done|].
        apply list_elem_of_fmap. exists j. split; [done|]. by left.
      * right. split; [lia|]. exists r'. split; [|done].
        replace (i - k) with (S (i - S k)) in Hr' by lia. done.
Qed.

Lemma filter_empty_users_rows_eq counts :
  rows (filter_empty_users counts) = filter nonzero_row (rows counts).
Proof.
  unfold filter_empty_users, mask_rows. simpl. apply mask_select_filter.
  apply Forall2_same_length_lookup_2.
  - by rewrite length_fmap, length_seq.
  - intros i b r Hb Hr. rewrite list_lookup_fmap in Hb.
    apply lookup_lt_Some in Hr as Hlt. fold (nrows counts) in Hlt.
    rewrite lookup_seq_lt in Hb by done. simpl in Hb. injection Hb as <-.
    rewrite bool_decide_eq_true, elem_of_list_to_set. unfold nonzero.
    rewrite elem_of_nonzero_rows, Nat.sub_0_r. split.
    + intros (_ & r' & Hr' & Hnz). by simplify_eq.
    + intros Hnz. split; [lia|]. by exists r.
Qed.

(** X10. [filter_empty_users] keeps, in their order, exactly the rows with
    a nonzero entry and leaves the columns alone; so its result has no
    all-zero row, and a matrix without all-zero rows is returned as it is. *)
Theorem filter_empty_users_spec (counts : csr_matrix) :
  rows (filter_empty_users counts) = filter nonzero_row (rows counts)
  ∧ ncols (filter_empty_users counts) = ncols counts
  ∧ no_zero_rows (filter_empty_users counts)
  ∧ (no_zero_rows counts → filter_empty_users counts = counts).
Proof.
  pose proof (filter_empty_users_rows_eq counts) as Hrows.
  split; [done|]. split; [done|]. split.
  - unfold no_zero_rows. rewrite Hrows. apply Forall_forall. intros r Hr.
    by apply list_elem_of_filter in Hr as [Hnz _].
  - intros Hnz. destruct counts as [V Rs].
    unfold filter_empty_users, mask_rows in *. simpl in *. f_equal.
    rewrite Hrows. clear Hrows. unfold no_zero_rows in Hnz. simpl in Hnz.
    induction Hnz as [|r Rs Hr _ IH]; [done|].
    rewrite filter_cons, decide_True by done. by rewrite IH.
Qed.

Lemma get_row_seq M : get_row M <$> seq 0 (nrows M) = rows M.
Proof.
  apply list_eq. intros i. rewrite list_lookup_fmap.
  destruct (decide (i < nrows M)) as [Hi|Hi].
  - rewrite lookup_seq_lt by done. simpl. unfold get_row.
    destruct (lookup_lt_is_Some_2 (rows M) i Hi) as [r Hr]. by rewrite Hr.
  - rewrite lookup_seq_ge by lia. symmetry. apply lookup_ge_None. unfold nrows in Hi. lia.
Qed.

Lemma null_baseline_groups_rows R RNG dem_counts rep_counts dem_user_len :
  RandomSpec R →
  rows (null_baseline_groups R RNG dem_counts rep_counts dem_user_len).1
  ++ rows (null_baseline_groups R RNG dem_counts rep_counts dem_user_len).2
  ≡ₚ rows dem_counts ++ rows rep_counts.
Proof.
  intros HR. unfold null_baseline_groups. simpl. rewrite take_drop.
  rewrite (shuffle_perm R HR).
  by rewrite (get_row_seq (vstack dem_counts rep_counts)).
Qed.

(** [get_leaveout_score] computes the null baseline on
    [null_baseline_groups]. *)
Lemma get_leaveout_score_unfold log2 R env corpus1 corpus2 id2word measure leaveout
    default_score min_docs max_docs :
  get_leaveout_score log2 R env corpus1 corpus2 id2word measure leaveout
                     default_score min_docs max_docs
  = let! p := prepare_counts R env corpus1 corpus2 id2word min_docs max_docs in
    match p with
    | TooFewDocs _ n => ret (Some default_score, Some default_score, n)
    | Prepared _ dem_counts rep_counts dem_user_len rep_user_len RNG =>
        let! actual_val := calculate_polarization log2 dem_counts rep_counts
                                                  measure leaveout in
        let groups := null_baseline_groups R RNG dem_counts rep_counts dem_user_len in
        let! random_val := calculate_polarization log2 groups.1 groups.2
                                                  measure leaveout in
        let n := (Z.of_nat dem_user_len + Z.of_nat rep_user_len)%Z in
        let! _ := print (Values actual_val random_val n) in
        ret (actual_val, random_val, n)
    end.
Proof. reflexivity. Qed.

(** X11. The null baseline is computed on the same documents as the
    actual score: the rows of its two groups together are a rearrangement
    of the rows of the two groups of the actual score, and its first group
    has [dem_user_len] rows when that many are left. *)
Theorem null_baseline_same_documents R RNG dem_counts rep_counts dem_user_len :
  RandomSpec R →
  rows (null_baseline_groups R RNG dem_counts rep_counts dem_user_len).1
  ++ rows (null_baseline_groups R RNG dem_counts rep_counts dem_user_len).2
  ≡ₚ rows dem_counts ++ rows rep_counts
  ∧ nrows (null_baseline_groups R RNG dem_counts rep_counts dem_user_len).1
    = dem_user_len `min` (nrows dem_counts + nrows rep_counts)
  ∧ nrows (null_baseline_groups R RNG dem_counts rep_counts dem_user_len).2
    = nrows dem_counts + nrows rep_counts - dem_user_len.
Proof.
  intros HR. split; [by apply null_baseline_groups_rows|].
  assert (length (shuffle R RNG (seq 0 (nrows (vstack dem_counts rep_counts)))).1
          = nrows dem_counts + nrows rep_counts) as Hlen.
  { rewrite (Permutation_length (shuffle_perm R HR _ _)), length_seq.
    unfold nrows, vstack. simpl. by rewrite length_app. }
  split.
  - unfold null_baseline_groups, rows_upto. unfold nrows at 1. simpl.
    by rewrite length_take, length_fmap, Hlen.
  - unfold null_baseline_groups, rows_from. unfold nrows at 1. simpl.
    by rewrite length_drop, length_fmap, Hlen.
Qed.

(** X12. [balance_groups] leaves the group that is not larger untouched,
    leaves the generator untouched when the groups are of one size, and
    replaces the larger group by as many of its own rows as the other group
    has. *)
Theorem balance_groups_spec R RNG dem_counts rep_counts :
  RandomSpec R →
  let balanced := balance_groups R RNG dem_counts rep_counts in
  nrows balanced.1.1 = nrows dem_counts `min` nrows rep_counts
  ∧ nrows balanced.1.2 = nrows dem_counts `min` nrows rep_counts
  ∧ (nrows dem_counts ≤ nrows rep_counts → balanced.1.1 = dem_counts)
  ∧ (nrows rep_counts ≤ nrows dem_counts → balanced.1.2 = rep_counts)
  ∧ (nrows dem_counts = nrows rep_counts → balanced.2 = RNG)
  ∧ rows balanced.1.1 ⊆ rows dem_counts
  ∧ rows balanced.1.2 ⊆ rows rep_counts.
Proof.
  intros HR. unfold balance_groups.
  assert (∀ M n k, k ≤ n → n = nrows M →
            rows (select_rows (sample R RNG n k).1 M) ⊆ rows M) as Hsub.
  { intros M n k Hk -> r Hr. unfold select_rows in Hr. simpl in Hr.
    apply list_elem_of_fmap in Hr as (i & -> & Hi).
    pose proof (sample_range R HR RNG (nrows M) k Hk) as Hrange.
    rewrite Forall_forall in Hrange. specialize (Hrange i Hi).
    destruct (lookup_lt_is_Some_2 (rows M) i Hrange) as [r Hr].
    unfold get_row. rewrite Hr. simpl. by eapply list_elem_of_lookup_2. }
  destruct (decide (nrows rep_counts < nrows dem_counts)) as [Hlt|Hge]; simpl.
  - split_and!; try done; try lia.
    + unfold nrows at 1. simpl. rewrite length_fmap, (sample_length R HR) by lia. lia.
    + apply Hsub; [lia|done].
  - destruct (decide (nrows dem_counts < nrows rep_counts)) as [Hlt|Hge']; simpl.
    + split_and!; try done; try lia.
      * unfold nrows at 1. simpl. rewrite length_fmap, (sample_length R HR) by lia. lia.
      * apply Hsub; [lia|done].
    + split_and!; try done; lia.
Qed.

(** ** The assertions of the pipeline *)

Lemma bind_ok_l {A B} (a : A) (k : A → M B) : bind ([], Ok a) k = k a.
Proof. exact (bind_ret_l a k). Qed.

Lemma mask_select_Forall {A} (P : A → Prop) (mask : list bool) (l : list A) :
  Forall P l → Forall P (mask_select mask l).
Proof.
  unfold mask_select. intros Hl. revert mask.
  induction Hl as [|x l Hx _ IH]; intros [|b mask]; csimpl; try done.
  apply Forall_app. split; [|apply IH]. destruct b; by repeat constructor.
Qed.

Lemma select_rows_nonneg idx M : counts_nonneg M → counts_nonneg (select_rows idx M).
Proof.
  unfold counts_nonneg, select_rows. simpl. intros HM.
  apply Forall_fmap, Forall_forall. intros i _. simpl. unfold get_row.
  destruct (rows M !! i) as [r|] eqn:Hr; simpl; [|done].
  eapply Forall_lookup_1 in HM; eauto.
Qed.

Lemma balance_groups_nonneg R RNG dem_counts rep_counts :
  counts_nonneg dem_counts → counts_nonneg rep_counts →
  counts_nonneg (balance_groups R RNG dem_counts rep_counts).1.1
  ∧ counts_nonneg (balance_groups R RNG dem_counts rep_counts).1.2.
Proof.
  intros Hd Hr. unfold balance_groups.
  repeat destruct (decide _); simpl; split; try done; by apply select_rows_nonneg.
Qed.

Lemma filter_rare_words_nonneg n dem_counts rep_counts :
  counts_nonneg dem_counts → counts_nonneg rep_counts →
  counts_nonneg (filter_rare_words n dem_counts rep_counts).1
  ∧ counts_nonneg (filter_rare_words n dem_counts rep_counts).2.
Proof.
  unfold counts_nonneg, filter_rare_words. simpl. intros Hd Hr.
  assert (Forall (Forall (λ x, 0 ≤ x)%Z) (rows dem_counts ++ rows rep_counts)) as Hall
    by (by apply Forall_app).
  set (mask := _ <$> seq 0 _).
  assert (Forall (Forall (λ x, 0 ≤ x)%Z)
                 (mask_select mask <$> rows dem_counts ++ rows rep_counts)) as Hm.
  { apply Forall_fmap. eapply Forall_impl; [exact Hall|].
    intros r Hr'. simpl. by apply mask_select_Forall. }
  split; [by apply Forall_take | by apply Forall_drop].
Qed.

Lemma filter_empty_users_no_zero_sum counts :
  counts_nonneg counts →
  Forall (λ r, Zsum r ≠ 0%Z) (rows (filter_empty_users counts)).
Proof.
  intros Hnn. rewrite filter_empty_users_rows_eq. apply Forall_forall.
  intros r Hr. apply list_elem_of_filter in Hr as [Hnz Hin].
  unfold counts_nonneg in Hnn. rewrite Forall_forall in Hnn.
  pose proof (Zsum_pos r (Hnn r Hin) Hnz). lia.
Qed.

(** Past the guard the two matrices for the estimator are the filtered
    ones, and with non-negative counts none of their rows sums to zero. *)
Lemma prepare_counts_past_guard R env corpus1 corpus2 id2word min_docs max_docs :
  RandomSpec R →
  corpus_in_vocab corpus1 id2word → corpus_in_vocab corpus2 id2word →
  corpus_counts_nonneg corpus1 → corpus_counts_nonneg corpus2 →
  ¬ (Z.of_nat (length corpus1) < min_docs ∨ Z.of_nat (length corpus2) < min_docs)%Z →
  ∃ dem_counts rep_counts n RNG,
    prepare_counts R env corpus1 corpus2 id2word min_docs max_docs
    = ([], Ok (Prepared R dem_counts rep_counts n n RNG))
    ∧ Forall (λ r, Zsum r ≠ 0%Z) (rows dem_counts)
    ∧ Forall (λ r, Zsum r ≠ 0%Z) (rows rep_counts).
Proof.
  intros HR H1 H2 Hn1 Hn2 Hguard. unfold prepare_counts.
  destruct (get_news_token_counts_ok _ _ H1) as (M1 & HM1 & _ & Hl1 & _).
  destruct (get_news_token_counts_ok _ _ H2) as (M2 & HM2 & _ & Hl2 & _).
  pose proof (get_news_token_counts_nonneg _ _ _ Hn1 HM1) as Hnn1.
  pose proof (get_news_token_counts_nonneg _ _ _ Hn2 HM2) as Hnn2.
  rewrite HM1, HM2. unfold bind, lift. simpl. rewrite Hl1, Hl2.
  rewrite bool_decide_eq_false_2 by done. rewrite !truncate_docs_id.
  set (b := balance_groups R _ _ _).
  pose proof (balance_groups_rows R (seed R (os_entropy env) 42) M1 M2 HR) as Hb.
  destruct (balance_groups_nonneg R (seed R (os_entropy env) 42) M1 M2 Hnn1 Hnn2)
    as [Hb1 Hb2].
  fold b in Hb, Hb1, Hb2.
  destruct (filter_rare_words_nonneg (nrows b.1.1) b.1.1 b.1.2 Hb1 Hb2) as [Hf1 Hf2].
  eexists _, _, (nrows b.1.1), b.2. split.
  - rewrite <- Hb. rewrite bool_decide_eq_true_2 by done. simpl. reflexivity.
  - split; by apply filter_empty_users_no_zero_sum.
Qed.

Lemma null_baseline_groups_no_zero_sum R RNG dem_counts rep_counts dem_user_len :
  RandomSpec R →
  Forall (λ r, Zsum r ≠ 0%Z) (rows dem_counts) →
  Forall (λ r, Zsum r ≠ 0%Z) (rows rep_counts) →
  Forall (λ r, Zsum r ≠ 0%Z)
         (rows (null_baseline_groups R RNG dem_counts rep_counts dem_user_len).1)
  ∧ Forall (λ r, Zsum r ≠ 0%Z)
           (rows (null_baseline_groups R RNG dem_counts rep_counts dem_user_len).2).
Proof.
  intros HR Hd Hr. apply Forall_app.
  rewrite (null_baseline_groups_rows R RNG dem_counts rep_counts dem_user_len HR).
  by apply Forall_app.
Qed.

(** X13. On corpora over the vocabulary with non-negative counts,
    [get_leaveout_score] never fails an assertion: the two groups have one
    size where line 787 checks it, and the rows that reach
    [calculate_polarization], for the actual score and for the null
    baseline, never sum to zero. *)
Theorem get_leaveout_score_no_assertion_failure log2 R env corpus1 corpus2 id2word
    measure leaveout default_score min_docs max_docs :
  RandomSpec R →
  corpus_in_vocab corpus1 id2word → corpus_in_vocab corpus2 id2word →
  corpus_counts_nonneg corpus1 → corpus_counts_nonneg corpus2 →
  (get_leaveout_score log2 R env corpus1 corpus2 id2word measure leaveout
                      default_score min_docs max_docs).2
  ≠ Raise AssertionError.
Proof.
  intros HR H1 H2 Hn1 Hn2.
  destruct (decide (Z.of_nat (length corpus1) < min_docs
                    ∨ Z.of_nat (length corpus2) < min_docs)%Z) as [Hfew|Hguard].
  - unfold get_leaveout_score. by rewrite prepare_counts_too_few.
  - destruct (prepare_counts_past_guard R env corpus1 corpus2 id2word min_docs
                max_docs HR H1 H2 Hn1 Hn2 Hguard)
      as (dem & rep & n & RNG & Hp & Hd & Hr).
    rewrite get_leaveout_score_unfold, Hp, bind_ok_l.
    destruct (calculate_polarization_past_asserts log2 dem rep measure leaveout Hd Hr)
      as [Hactual _].
    destruct (null_baseline_groups_no_zero_sum R RNG dem rep n HR Hd Hr) as [Hg1 Hg2].
    destruct (calculate_polarization_past_asserts log2
                (null_baseline_groups R RNG dem rep n).1
                (null_baseline_groups R RNG dem rep n).2 measure leaveout Hg1 Hg2)
      as [Hrandom _].
    cbv zeta. unfold bind at 1.
    destruct (calculate_polarization log2 dem rep measure leaveout) as [o1 [a|e1]];
      simpl in *; [|congruence].
    unfold bind at 1.
    destruct (calculate_polarization log2 _ _ measure leaveout) as [o2 [r|e2]];
      simpl in *; [done|congruence].
Qed.

(** ** An unknown measure in the pipeline *)



(** ** Rare words *)

Lemma nth_true_lookup mask k j : nth_true mask k = Some j → mask !! j = Some true.
Proof.
  revert k j. induction mask as [|b mask IH]; intros k j; csimpl; [done|].
  destruct b.
  - destruct k as [|k]; [by intros [= <-]|].
    destruct (nth_true mask k) as [j'|] eqn:Hj'; simpl; [|done].
    intros [= <-]. simpl. by eapply IH.
  - destruct (nth_true mask k) as [j'|] eqn:Hj'; simpl; [|done].
    intros [= <-]. simpl. by eapply IH.
Qed.

Lemma nth_true_is_Some mask k :
  k < length (filter (λ b, b = true) mask) → is_Some (nth_true mask k).
Proof.
  revert k. induction mask as [|b mask IH]; intros k Hk; csimpl in *; [lia|].
  rewrite filter_cons in Hk. destruct b.
  - rewrite decide_True in Hk by done. simpl in Hk. destruct k as [|k]; [by eexists|].
    destruct (IH k ltac:(lia)) as [j ->]. by eexists.
  - rewrite decide_False in Hk by done.
    destruct (IH k Hk) as [j ->]. by eexists.
Qed.

Lemma mask_select_lookup mask (r : list Z) k :
  default 0%Z (mask_select mask r !! k)
  = default 0%Z (nth_true mask k ≫= (r !!.)).
Proof.
  unfold mask_select. revert r k.
  induction mask as [|b mask IH]; intros [|x r] k; csimpl; try done.
  - destruct b; [destruct k as [|k]|]; try done.
    + by destruct (nth_true mask k).
    + by destruct (nth_true mask k).
  - destruct b; simpl.
    + destruct k as [|k]; [done|]. simpl. rewrite IH.
      by destruct (nth_true mask k).
    + rewrite IH. by destruct (nth_true mask k).
Qed.

Lemma presence_mask_select mask R k j :
  nth_true mask k = Some j → presence (mask_select mask <$> R) k = presence R j.
Proof.
  intros Hj. unfold presence. induction R as [|r R IH]; csimpl; [done|].
  rewrite !filter_cons, mask_select_lookup, Hj. simpl.
  destruct (decide (default 0%Z (r !! j) ≠ 0%Z)); simpl; by rewrite IH.
Qed.

(** X15. After [filter_rare_words] every remaining column is used by at
    least two documents of the two groups together; the two parts have the
    same columns, together they have all the rows of the input, and the
    first part has [dem_user_len] of them when that many exist. *)
Theorem filter_rare_words_spec (dem_user_len : nat) (dem_counts rep_counts : csr_matrix) :
  let filtered := filter_rare_words dem_user_len dem_counts rep_counts in
  ncols filtered.1 = ncols filtered.2
  ∧ nrows filtered.1 + nrows filtered.2 = nrows dem_counts + nrows rep_counts
  ∧ nrows filtered.1 = dem_user_len `min` (nrows dem_counts + nrows rep_counts)
  ∧ ∀ k, k < ncols filtered.1 →
         2 ≤ presence (rows filtered.1 ++ rows filtered.2) k.
Proof.
  assert (∀ M k, nrows (rows_upto k M) = k `min` nrows M) as Hupto
    by (intros; unfold nrows, rows_upto; simpl; apply length_take).
  assert (∀ M k, nrows (rows_from k M) = nrows M - k) as Hfrom
    by (intros; unfold nrows, rows_from; simpl; apply length_drop).
  assert (∀ mask, nrows (mask_cols mask (vstack dem_counts rep_counts))
                  = nrows dem_counts + nrows rep_counts) as Hstack.
  { intros. unfold nrows, mask_cols, vstack. simpl.
    by rewrite length_fmap, length_app. }
  unfold filter_rare_words. cbv zeta. cbn [fst snd].
  set (mask := _ <$> seq 0 (ncols (vstack dem_counts rep_counts))).
  rewrite Hupto, Hfrom, Hstack.
  split; [done|]. split; [lia|]. split; [done|].
  intros k Hk. unfold rows_upto, rows_from. cbn [rows]. rewrite take_drop.
  unfold mask_cols in *. cbn [rows ncols] in *.
  destruct (nth_true_is_Some mask k Hk) as [j Hj].
  rewrite (presence_mask_select mask _ k j Hj).
  apply nth_true_lookup in Hj. unfold mask in Hj.
  rewrite list_lookup_fmap in Hj.
  destruct (seq 0 (ncols (vstack dem_counts rep_counts)) !! j) as [j'|] eqn:Hseq;
    [|done].
  apply lookup_seq in Hseq as [-> _]. simpl in Hj. injection Hj as Hj.
  apply bool_decide_eq_true in Hj.
  fold (occurrences j (nonzero (vstack dem_counts rep_counts)).*2) in Hj.
  unfold nonzero in Hj. rewrite occurrences_nonzero_rows in Hj. done.
Qed.

(** ** The scorers inside the leave-out loop *)

Lemma chi_denom_positive_zip4 n1 n2 (t1 t2 : list Z) :
  Forall (λ t, 1 ≤ t ≤ n1 + 1)%Z t1 → Forall (λ t, 1 ≤ t ≤ n2 + 1)%Z t2 →
  Forall (λ x, 0 < chi_denom n1 n2 x)%Z
         (zip4 t1 t2 (complement_counts n1 t1) (complement_counts n2 t2)).
Proof.
  intros H1 H2. apply Forall_lookup. intros j x Hx.
  apply zip4_lookup in Hx as (Ha & Hb & Hc & Hd).
  rewrite complement_counts_lookup in Hc, Hd. rewrite Ha in Hc. rewrite Hb in Hd.
  injection Hc as Hc. injection Hd as Hd.
  apply chi_denom_positive; try done.
  - eapply Forall_lookup_1 in H1; eauto.
  - eapply Forall_lookup_1 in H2; eauto.
Qed.

(** X16. In the leave-out loops too the denominator of [chi_square] is
    strictly positive for every token: for every document [i] of group 1
    with the counts of lines 720-725, and for every document [i] of group 2
    with the counts of lines 732-737, also when the group has one document
    only. *)
Theorem chi_square_leaveout_denominator_positive (dem_counts rep_counts : csr_matrix) :
  let dem_no := Z.of_nat (nrows dem_counts) in
  let rep_no := Z.of_nat (nrows rep_counts) in
  let dem_t := get_token_user_counts dem_counts in
  let rep_t := get_token_user_counts rep_counts in
  let dem_not_t := complement_counts dem_no dem_t in
  let rep_not_t := complement_counts rep_no rep_t in
  (∀ i, i < nrows dem_counts →
        let dem_leaveout_t := leaveout_token_user_counts dem_t dem_counts i in
        Forall (λ x, 0 < chi_denom (dem_no - 1) rep_no x)%Z
               (zip4 dem_leaveout_t rep_t
                     (complement_counts (dem_no - 1) dem_leaveout_t) rep_not_t))
  ∧ (∀ i, i < nrows rep_counts →
          let rep_leaveout_t := leaveout_token_user_counts rep_t rep_counts i in
          Forall (λ x, 0 < chi_denom dem_no (rep_no - 1) x)%Z
                 (zip4 dem_t rep_leaveout_t dem_not_t
                       (complement_counts (rep_no - 1) rep_leaveout_t))).
Proof.
  intros dem_no rep_no dem_t rep_t dem_not_t rep_not_t.
  pose proof (get_token_user_counts_bounds dem_counts) as Hdem.
  pose proof (get_token_user_counts_bounds rep_counts) as Hrep.
  split; intros i Hi; cbv zeta.
  - apply chi_denom_positive_zip4; [|done]. by apply leaveout_counts_bounds.
  - apply chi_denom_positive_zip4; [done|]. by apply leaveout_counts_bounds.
Qed.

(** ** The arguments of the logarithm *)

Lemma mi_terms_arguments log2 dem_no rep_no x :
  mi_terms log2 dem_no rep_no x = mi_terms_of_arguments log2 dem_no rep_no x.
Proof. by destruct x as [[[a b] c] d]. Qed.

Lemma Qc_of_Z_pos n : (0 < n)%Z → (0 < Qc_of_Z n)%Qc.
Proof. intros Hn. apply (proj1 (Z2Qc_inj_lt 0 n)) in Hn. by rewrite Z2Qc_inj_0 in Hn. Qed.

Lemma Qcdiv_pos (x y : Qc) : (0 < x → 0 < y → 0 < x / y)%Qc.
Proof. intros Hx Hy. apply Qcmult_pos_pos; [done|]. by apply Qcinv_pos. Qed.

Lemma mi_log_arguments_positive n1 n2 (x : Z * Z * Z * Z) :
  (0 < n1)%Z → (0 < n2)%Z →
  (1 ≤ x.1.1.1 ≤ n1 + 1)%Z → (1 ≤ x.1.1.2 ≤ n2 + 1)%Z →
  x.1.2 = (n1 - x.1.1.1 + 2)%Z → x.2 = (n2 - x.1.1.2 + 2)%Z →
  Forall (λ arg, 0 < arg)%Qc (mi_log_arguments n1 n2 x).
Proof.
  destruct x as [[[a b] c] d]. simpl. intros Hn1 Hn2 Ha Hb -> ->.
  repeat constructor;
    (apply Qcmult_pos_pos; [apply Qc_of_Z_pos; lia|]);
    (apply Qcdiv_pos; [apply Qc_of_Z_pos; lia|]);
    apply Qcmult_pos_pos; apply Qc_of_Z_pos; lia.
Qed.

(** X17. Without leave-out and with at least one document in each group,
    every value that [mutual_information] passes to [np.log2] is strictly
    positive, for every token: the add-one smoothing keeps the logarithm
    away from zero and from negative numbers. *)
Theorem mutual_information_log_arguments_positive (dem_counts rep_counts : csr_matrix) :
  0 < nrows dem_counts → 0 < nrows rep_counts →
  let dem_no := Z.of_nat (nrows dem_counts) in
  let rep_no := Z.of_nat (nrows rep_counts) in
  let dem_t := get_token_user_counts dem_counts in
  let rep_t := get_token_user_counts rep_counts in
  let dem_not_t := complement_counts dem_no dem_t in
  let rep_not_t := complement_counts rep_no rep_t in
  Forall (λ x, Forall (λ arg, 0 < arg)%Qc (mi_log_arguments dem_no rep_no x))
         (zip4 dem_t rep_t dem_not_t rep_not_t).
Proof.
  intros HnA HnB dem_no rep_no dem_t rep_t dem_not_t rep_not_t.
  pose proof (get_token_user_counts_bounds dem_counts) as Hdem.
  pose proof (get_token_user_counts_bounds rep_counts) as Hrep.
  apply Forall_lookup. intros j x Hx.
  apply zip4_lookup in Hx as (Ha & Hb & Hc & Hd).
  subst dem_not_t rep_not_t. rewrite complement_counts_lookup in Hc, Hd.
  fold dem_t in Hc. fold rep_t in Hd. rewrite Ha in Hc. rewrite Hb in Hd.
  injection Hc as Hc. injection Hd as Hd.
  apply mi_log_arguments_positive; try done; try (subst dem_no rep_no; lia).
  - eapply Forall_lookup_1 in Hdem; eauto.
  - eapply Forall_lookup_1 in Hrep; eauto.
Qed.

(** ** Two more edges *)

(** X19. For a row index [e] other than 0, [get_party_q C e] is the
    distribution of the group without document [e]: it is what
    [get_party_q] returns for the matrix of the other rows. *)
Theorem get_party_q_excludes_later_rows (party_counts : csr_matrix) (e : nat) :
  wf_matrix party_counts → 0 < e → e < nrows party_counts →
  get_party_q party_counts (Some e) = get_party_q (remove_row party_counts e) None.
Proof.
  intros Hwf He0 He. destruct e as [|e]; [lia|].
  unfold get_party_q. simpl. by rewrite sum_axis0_remove_row.
Qed.

(** X20. A token id outside the vocabulary makes [get_leaveout_score]
    raise [ValueError] before the [min_docs] guard is reached, so also when
    a group has too few documents; nothing is printed. *)
Theorem get_leaveout_score_out_of_vocab log2 R env corpus1 corpus2 id2word
    measure leaveout default_score min_docs max_docs :
  ¬ corpus_in_vocab corpus1 id2word ∨ ¬ corpus_in_vocab corpus2 id2word →
  get_leaveout_score log2 R env corpus1 corpus2 id2word measure leaveout
                     default_score min_docs max_docs
  = ([], Raise ValueError).
Proof.
  intros Hout. unfold get_leaveout_score, prepare_counts.
  destruct (decide (corpus_in_vocab corpus1 id2word)) as [H1|H1].
  - destruct Hout as [Hout|Hout]; [done|].
    destruct (get_news_token_counts_ok _ _ H1) as (M1 & -> & _).
    by rewrite (get_news_token_counts_out_of_vocab corpus2).
  - by rewrite (get_news_token_counts_out_of_vocab corpus1).
Qed.

(** ** The further properties at concrete inputs *)

Lemma users_ab_wf : wf_matrix users_ab.
Proof. repeat constructor. Qed.

Lemma users_ba_wf : wf_matrix users_ba.
Proof. repeat constructor. Qed.

Lemma users_ab_nonneg : counts_nonneg users_ab.
Proof. repeat (apply Forall_cons; split); try apply Forall_nil; lia. Qed.

Lemma users_ab_row_sums : Forall (λ r, Zsum r ≠ 0%Z) (rows users_ab).
Proof. repeat constructor; discriminate. Qed.

Lemma users_ba_row_sums : Forall (λ r, Zsum r ≠ 0%Z) (rows users_ba).
Proof. repeat constructor; discriminate. Qed.

Lemma users_ab_ba_mass :
  Forall2 (λ d r, d + r ≠ 0)%Qc (get_party_q users_ab None) (get_party_q users_ba None).
Proof.
  repeat constructor; intros H; apply (f_equal this) in H; vm_compute in H;
    discriminate.
Qed.

Lemma rare_word_corpora_in_vocab :
  corpus_in_vocab rare_word_corpus1 abc ∧ corpus_in_vocab rare_word_corpus2 abc.
Proof.
  split; repeat (apply Forall_cons; split); try apply Forall_nil; simpl; lia.
Qed.

Lemma rare_word_corpora_nonneg :
  corpus_counts_nonneg rare_word_corpus1 ∧ corpus_counts_nonneg rare_word_corpus2.
Proof.
  split; repeat (apply Forall_cons; split); try apply Forall_nil; simpl; lia.
Qed.

Lemma get_news_token_counts_succeeds_iff_witness :
  counts_fit_int64 unknown_id_corpus ∧ ids_fit_int32 unknown_id_corpus
  ∧ ((∃ M, get_news_token_counts unknown_id_corpus abc = Ok M)
     ↔ corpus_in_vocab unknown_id_corpus abc)
  ∧ (¬ corpus_in_vocab unknown_id_corpus abc →
     get_news_token_counts unknown_id_corpus abc = Raise ValueError).
Proof.
  assert (counts_fit_int64 unknown_id_corpus) as Hfit by (vm_compute; reflexivity).
  assert (ids_fit_int32 unknown_id_corpus) as Hids.
  { repeat (apply Forall_cons; split); try apply Forall_nil; simpl; lia. }
  refine (conj Hfit (conj Hids _)).
  exact (get_news_token_counts_succeeds_iff unknown_id_corpus abc Hfit Hids).
Defined.

Lemma get_news_token_counts_shape_and_sign_witness :
  corpus_in_vocab repeated_id_corpus ["a"; "b"]%string
  ∧ counts_fit_int64 repeated_id_corpus
  ∧ ∃ M, get_news_token_counts repeated_id_corpus ["a"; "b"]%string = Ok M
         ∧ wf_matrix M
         ∧ (∀ i, repeated_id_corpus !! i = Some [] →
                 get_row M i = replicate (length ["a"; "b"]%string) 0%Z)
         ∧ (corpus_counts_nonneg repeated_id_corpus → counts_nonneg M).
Proof.
  assert (corpus_in_vocab repeated_id_corpus ["a"; "b"]%string) as Hin.
  { repeat (apply Forall_cons; split); try apply Forall_nil; simpl; lia. }
  assert (counts_fit_int64 repeated_id_corpus) as Hfit by (vm_compute; reflexivity).
  refine (conj Hin (conj Hfit _)).
  exact (get_news_token_counts_shape_and_sign repeated_id_corpus ["a"; "b"]%string
           Hin Hfit).
Defined.

Lemma get_party_q_values_range_witness :
  wf_matrix users_ab ∧ counts_nonneg users_ab ∧ entries_fit_int64 users_ab
  ∧ matrix_sum users_ab ≠ 0%Z
  ∧ length (get_party_q users_ab None) = ncols users_ab
  ∧ Forall (λ q, 0 ≤ q ≤ 1)%Qc (get_party_q users_ab None).
Proof.
  assert (entries_fit_int64 users_ab) as Hfit by (vm_compute; reflexivity).
  assert (matrix_sum users_ab ≠ 0%Z) as Hs by discriminate.
  refine (conj users_ab_wf (conj users_ab_nonneg (conj Hfit (conj Hs _)))).
  exact (get_party_q_values_range users_ab users_ab_wf users_ab_nonneg Hfit Hs).
Defined.

Lemma users_ab_q_nonneg : Forall (λ q, 0 ≤ q)%Qc (get_party_q users_ab None).
Proof. repeat constructor; vm_compute; discriminate. Qed.

Lemma users_ba_q_nonneg : Forall (λ q, 0 ≤ q)%Qc (get_party_q users_ba None).
Proof. repeat constructor; vm_compute; discriminate. Qed.

Lemma posterior_scores_in_unit_interval_witness :
  Forall (λ q, 0 ≤ q)%Qc (get_party_q users_ab None)
  ∧ Forall (λ q, 0 ≤ q)%Qc (get_party_q users_ba None)
  ∧ Forall2 (λ d r, d + r ≠ 0)%Qc (get_party_q users_ab None) (get_party_q users_ba None)
  ∧ Forall (λ s, 0 ≤ s ≤ 1)%Qc
           (get_rho (get_party_q users_ab None) (get_party_q users_ba None))
  ∧ Forall (λ s, 0 ≤ s ≤ 1)%Qc
           ((λ x, 1 - x)%Qc <$> get_rho (get_party_q users_ab None)
                                        (get_party_q users_ba None)).
Proof.
  refine (conj users_ab_q_nonneg (conj users_ba_q_nonneg (conj users_ab_ba_mass _))).
  exact (posterior_scores_in_unit_interval _ _ users_ab_q_nonneg users_ba_q_nonneg
           users_ab_ba_mass).
Defined.

Lemma calculate_polarization_assertion_witness :
  0 < nrows two_users ∧ 0 < nrows (Csr 2 [[0; 0]; [1; 0]]%Z)
  ∧ ((calculate_polarization log2_unused two_users (Csr 2 [[0; 0]; [1; 0]]%Z)
                             "cosine" true).2
     = Raise AssertionError
     ↔ Exists (λ r, Zsum r = 0%Z) (rows two_users)
       ∨ Exists (λ r, Zsum r = 0%Z) (rows (Csr 2 [[0; 0]; [1; 0]]%Z)))
  ∧ (Exists (λ r, Zsum r = 0%Z) (rows two_users)
     ∨ Exists (λ r, Zsum r = 0%Z) (rows (Csr 2 [[0; 0]; [1; 0]]%Z)) →
     calculate_polarization log2_unused two_users (Csr 2 [[0; 0]; [1; 0]]%Z)
                            "cosine" true
     = ([], Raise AssertionError)).
Proof.
  assert (0 < nrows two_users) as H1 by (vm_compute; lia).
  assert (0 < nrows (Csr 2 [[0; 0]; [1; 0]]%Z)) as H2 by (vm_compute; lia).
  refine (conj H1 (conj H2 _)).
  exact (calculate_polarization_assertion log2_unused two_users
           (Csr 2 [[0; 0]; [1; 0]]%Z) "cosine" true H1 H2).
Defined.

Lemma calculate_polarization_no_exception_witness :
  "mutual_information"%string ∈ valid_measures
  ∧ wf_matrix users_ab ∧ wf_matrix users_ba ∧ ncols users_ab = ncols users_ba
  ∧ entries_fit_int64 users_ab ∧ entries_fit_int64 users_ba
  ∧ Forall (λ r, Zsum r ≠ 0%Z) (rows users_ab)
  ∧ Forall (λ r, Zsum r ≠ 0%Z) (rows users_ba)
  ∧ 0 < nrows users_ab ∧ 0 < nrows users_ba
  ∧ let outcome := calculate_polarization log2_unused users_ab users_ba
                                          "mutual_information" true in
    outcome.1 = [] ∧ (∀ e, outcome.2 ≠ Raise e) ∧ outcome.2 ≠ Ok None.
Proof.
  assert ("mutual_information"%string ∈ valid_measures) as Hm.
  { unfold valid_measures. rewrite !elem_of_cons. tauto. }
  assert (ncols users_ab = ncols users_ba) as Hc by reflexivity.
  assert (entries_fit_int64 users_ab) as Hf1 by (vm_compute; reflexivity).
  assert (entries_fit_int64 users_ba) as Hf2 by (vm_compute; reflexivity).
  assert (0 < nrows users_ab) as H1 by (vm_compute; lia).
  assert (0 < nrows users_ba) as H2 by (vm_compute; lia).
  refine (conj Hm (conj users_ab_wf (conj users_ba_wf (conj Hc (conj Hf1 (conj Hf2
            (conj users_ab_row_sums (conj users_ba_row_sums (conj H1 (conj H2 _)))))))))).
  exact (calculate_polarization_no_exception log2_unused users_ab users_ba
           "mutual_information" true Hm users_ab_wf users_ba_wf Hc Hf1 Hf2
           users_ab_row_sums users_ba_row_sums H1 H2).
Defined.

Lemma null_baseline_same_documents_witness :
  RandomSpec counting_random
  ∧ rows (null_baseline_groups counting_random (42 : rng_state counting_random)
                               users_ab users_ba 2).1
    ++ rows (null_baseline_groups counting_random (42 : rng_state counting_random)
                                  users_ab users_ba 2).2
    ≡ₚ rows users_ab ++ rows users_ba
  ∧ nrows (null_baseline_groups counting_random (42 : rng_state counting_random)
                                users_ab users_ba 2).1
    = 2 `min` (nrows users_ab + nrows users_ba)
  ∧ nrows (null_baseline_groups counting_random (42 : rng_state counting_random)
                                users_ab users_ba 2).2
    = nrows users_ab + nrows users_ba - 2.
Proof.
  refine (conj counting_random_spec _).
  exact (null_baseline_same_documents counting_random
           (42 : rng_state counting_random) users_ab users_ba 2 counting_random_spec).
Defined.

Lemma balance_groups_spec_witness :
  RandomSpec counting_random
  ∧ let balanced := balance_groups counting_random (42 : rng_state counting_random)
                                   only_first_word users_ba in
    nrows balanced.1.1 = nrows only_first_word `min` nrows users_ba
    ∧ nrows balanced.1.2 = nrows only_first_word `min` nrows users_ba
    ∧ (nrows only_first_word ≤ nrows users_ba → balanced.1.1 = only_first_word)
    ∧ (nrows users_ba ≤ nrows only_first_word → balanced.1.2 = users_ba)
    ∧ (nrows only_first_word = nrows users_ba →
       balanced.2 = (42 : rng_state counting_random))
    ∧ rows balanced.1.1 ⊆ rows only_first_word
    ∧ rows balanced.1.2 ⊆ rows users_ba.
Proof.
  refine (conj counting_random_spec _).
  exact (balance_groups_spec counting_random (42 : rng_state counting_random)
           only_first_word users_ba counting_random_spec).
Defined.

Lemma get_leaveout_score_no_assertion_failure_witness :
  RandomSpec counting_random
  ∧ corpus_in_vocab rare_word_corpus1 abc ∧ corpus_in_vocab rare_word_corpus2 abc
  ∧ corpus_counts_nonneg rare_word_corpus1 ∧ corpus_counts_nonneg rare_word_corpus2
  ∧ (get_leaveout_score log2_unused counting_random environment0 rare_word_corpus1
                        rare_word_corpus2 abc "chi_square" true (Q2Qc (1 # 2)) 1 10).2
    ≠ Raise AssertionError.
Proof.
  destruct rare_word_corpora_in_vocab as [H1 H2].
  destruct rare_word_corpora_nonneg as [Hn1 Hn2].
  refine (conj counting_random_spec (conj H1 (conj H2 (conj Hn1 (conj Hn2 _))))).
  exact (get_leaveout_score_no_assertion_failure log2_unused counting_random
           environment0 rare_word_corpus1 rare_word_corpus2 abc "chi_square" true
           (Q2Qc (1 # 2)) 1 10 counting_random_spec H1 H2 Hn1 Hn2).
Defined.


Lemma mutual_information_log_arguments_positive_witness :
  0 < nrows users_ab ∧ 0 < nrows users_ba
  ∧ Forall (λ x, Forall (λ arg, 0 < arg)%Qc
                        (mi_log_arguments (Z.of_nat (nrows users_ab))
                                          (Z.of_nat (nrows users_ba)) x))
           (zip4 (get_token_user_counts users_ab) (get_token_user_counts users_ba)
                 (complement_counts (Z.of_nat (nrows users_ab))
                                    (get_token_user_counts users_ab))
                 (complement_counts (Z.of_nat (nrows users_ba))
                                    (get_token_user_counts users_ba))).
Proof.
  assert (0 < nrows users_ab) as H1 by (vm_compute; lia).
  assert (0 < nrows users_ba) as H2 by (vm_compute; lia).
  refine (conj H1 (conj H2 _)).
  exact (mutual_information_log_arguments_positive users_ab users_ba H1 H2).
Defined.

Lemma get_party_q_excludes_later_rows_witness :
  wf_matrix users_ab ∧ 0 < 1 ∧ 1 < nrows users_ab
  ∧ get_party_q users_ab (Some 1) = get_party_q (remove_row users_ab 1) None.
Proof.
  assert (0 < 1) as H0 by lia.
  assert (1 < nrows users_ab) as H1 by (vm_compute; lia).
  refine (conj users_ab_wf (conj H0 (conj H1 _))).
  exact (get_party_q_excludes_later_rows users_ab 1 users_ab_wf H0 H1).
Defined.

Lemma get_leaveout_score_out_of_vocab_witness :
  (¬ corpus_in_vocab unknown_id_corpus abc ∨ ¬ corpus_in_vocab rare_word_corpus2 abc)
  ∧ get_leaveout_score log2_unused counting_random environment0 unknown_id_corpus
                       rare_word_corpus2 abc "posterior" true (Q2Qc (1 # 2)) 10 999
    = ([], Raise ValueError).
Proof.
  assert (¬ corpus_in_vocab unknown_id_corpus abc
          ∨ ¬ corpus_in_vocab rare_word_corpus2 abc) as Hout.
  { left. intros H. apply Forall_cons in H as [_ H]. apply Forall_cons in H as [H _].
    apply Forall_cons in H as [H _]. simpl in H. lia. }
  refine (conj Hout _).
  exact (get_leaveout_score_out_of_vocab log2_unused counting_random environment0
           unknown_id_corpus rare_word_corpus2 abc "posterior" true (Q2Qc (1 # 2))
           10 999 Hout).
Defined.
